(** * Distributed load balancer: the routing engine of [load_balancer.py]

    A shallow embedding of the backend registry, the four selection
    algorithms, the per-request metrics bookkeeping of [proxy], the
    administrative policy switch and the health-check loop, followed by the
    properties of the specification that are settled against them.  The
    backend server of [backend_server.py] and the client-side analysis of
    [compare_algorithms.py] are embedded in modules of their own.

    Conventions of the embedding:
    - Python [int] is [Z]; the [defaultdict(int)] counters are
      [gmap string Z] read with default [0], [defaultdict(list)] is
      [gmap string (list Q)] read with default [[]]; reading a missing
      key of a [defaultdict] stores the default under it, which no read
      and no sum over the values can tell from the key being absent, so
      reads leave the map as it is;
    - durations ([time.time()] differences, Python floats) are exact
      rationals [Q]; the clock and the transport are inputs of the model;
    - [socketio.emit] and [logging] neither read nor write the modelled
      state in a way that later code observes; they are left out;
    - in the interleaving semantics a selection, every block under
      [with lock], and the recording of an answered forward (the append of
      line 184 with the block of lines 187-198) are atomic steps. *)

From Stdlib Require Import ZArith QArith String List Lia.
From stdpp Require Import gmap strings list fin_maps sorting.

Local Open Scope string_scope.
Local Open Scope list_scope.
Local Open Scope Z_scope.

(** ** Data model *)

(** One entry of [BACKENDS]: a dict with these five keys. *)
Record Backend := mkBackend {
  name : string;
  url : string;
  type : string;
  healthy : bool;
  color : string
}.

(** One entry of [request_history]. *)
Record RequestRecord := mkRecord {
  rec_timestamp : string;
  rec_path : string;
  rec_type : string;
  rec_backend : string;
  rec_duration : Q;
  rec_status : string;
  rec_optimized : bool
}.

(** The module-level globals of [load_balancer.py]. *)
Record State := mkState {
  BACKENDS : list Backend;
  active_connections : gmap string Z;
  total_requests : gmap string Z;
  failed_requests : gmap string Z;
  response_times : gmap string (list Q);
  request_history : list RequestRecord;
  current_index : Z;
  ALGORITHM : string
}.

(** [d[k]] on a [defaultdict(int)]. *)
Definition dd_get (d : gmap string Z) (k : string) : Z := default 0 (d !! k).

(** [d[k] += n] on a [defaultdict(int)]. *)
Definition dd_add (d : gmap string Z) (k : string) (n : Z) : gmap string Z :=
  <[k := dd_get d k + n]> d.

(** [d[k]] on a [defaultdict(list)]. *)
Definition dl_get (d : gmap string (list Q)) (k : string) : list Q :=
  default [] (d !! k).

(** [d[k].append(x)] on a [defaultdict(list)]. *)
Definition dl_append (d : gmap string (list Q)) (k : string) (x : Q)
  : gmap string (list Q) :=
  <[k := dl_get d k ++ [x]]> d.

Definition set_BACKENDS (bs : list Backend) (s : State) : State :=
  mkState bs (active_connections s) (total_requests s) (failed_requests s)
          (response_times s) (request_history s) (current_index s) (ALGORITHM s).

Definition set_active_connections (m : gmap string Z) (s : State) : State :=
  mkState (BACKENDS s) m (total_requests s) (failed_requests s)
          (response_times s) (request_history s) (current_index s) (ALGORITHM s).

Definition set_total_requests (m : gmap string Z) (s : State) : State :=
  mkState (BACKENDS s) (active_connections s) m (failed_requests s)
          (response_times s) (request_history s) (current_index s) (ALGORITHM s).

Definition set_failed_requests (m : gmap string Z) (s : State) : State :=
  mkState (BACKENDS s) (active_connections s) (total_requests s) m
          (response_times s) (request_history s) (current_index s) (ALGORITHM s).

Definition set_response_times (m : gmap string (list Q)) (s : State) : State :=
  mkState (BACKENDS s) (active_connections s) (total_requests s)
          (failed_requests s) m (request_history s) (current_index s)
          (ALGORITHM s).

Definition set_request_history (h : list RequestRecord) (s : State) : State :=
  mkState (BACKENDS s) (active_connections s) (total_requests s)
          (failed_requests s) (response_times s) h (current_index s)
          (ALGORITHM s).

Definition set_current_index (i : Z) (s : State) : State :=
  mkState (BACKENDS s) (active_connections s) (total_requests s)
          (failed_requests s) (response_times s) (request_history s) i
          (ALGORITHM s).

Definition set_ALGORITHM (a : string) (s : State) : State :=
  mkState (BACKENDS s) (active_connections s) (total_requests s)
          (failed_requests s) (response_times s) (request_history s)
          (current_index s) a.

(** ** Python helpers *)

(** [min(x :: xs, key=key)]: the running best is replaced only by a
    strictly smaller key, so the first minimal element wins. *)
Fixpoint min_from {A : Type} (key : A → Z) (best : A) (xs : list A) : A :=
  match xs with
  | [] => best
  | x :: xs' => if key x <? key best then min_from key x xs'
                else min_from key best xs'
  end.

(** [min(xs, key=key)]; [None] stands for the [ValueError] on an empty
    sequence. *)
Definition py_min {A : Type} (key : A → Z) (xs : list A) : option A :=
  match xs with
  | [] => None
  | x :: xs' => Some (min_from key x xs')
  end.

(** [s.startswith(p)]. *)
Definition startswith (s p : string) : bool := String.prefix p s.

(** [s.endswith(suffix)]. *)
Definition endswith (s suffix : string) : bool :=
  (String.length suffix <=? String.length s)%nat
  && String.eqb
       (substring (String.length s - String.length suffix)
                  (String.length suffix) s)
       suffix.

(** [sub in s]. *)
Fixpoint contains (sub s : string) : bool :=
  String.prefix sub s
  || match s with
     | EmptyString => false
     | String _ s' => contains sub s'
     end.

(** [xs[-n:]] for [n > 0]. *)
Definition last_n {A : Type} (n : nat) (xs : list A) : list A :=
  skipn (length xs - n) xs.

(** ** Backend registry *)

Definition get_healthy_backends (s : State) : list Backend :=
  List.filter healthy (BACKENDS s).

(** ** Selection algorithms *)

(** The key of every [min] call: [active_connections[b["name"]]]. *)
Definition load (s : State) (b : Backend) : Z :=
  dd_get (active_connections s) (name b).

Definition round_robin (s : State) : option Backend * State :=
  let backends := get_healthy_backends s in
  match backends with
  | [] => (None, s)
  | _ :: _ =>
      let backend :=
        backends !! Z.to_nat (current_index s `mod` Z.of_nat (length backends)) in
      (backend, set_current_index (current_index s + 1) s)
  end.

Definition least_connections (s : State) : option Backend :=
  let backends := get_healthy_backends s in
  match backends with
  | [] => None
  | _ :: _ => py_min (load s) backends
  end.

(** The body of each of the three [if]/[elif] arms of
    [content_based_routing], which differ only in the type looked for:
    the healthy servers of that type, the least busy of them when there is
    one, and otherwise the fall through to the final [return round_robin()]. *)
Definition affinity_arm (s : State) (backends : list Backend) (ty : string)
  : option Backend * State :=
  let servers := List.filter (fun b => String.eqb (type b) ty) backends in
  match servers with
  | [] => round_robin s
  | _ :: _ => (py_min (load s) servers, s)
  end.

Definition content_based_routing (path : string) (s : State)
  : option Backend * State :=
  let backends := get_healthy_backends s in
  match backends with
  | [] => (None, s)
  | _ :: _ =>
      if startswith path "video/" then affinity_arm s backends "video"
      else if startswith path "api/" then affinity_arm s backends "api"
      else if startswith path "image/" then affinity_arm s backends "image"
      else round_robin s
  end.

Definition large_file_extensions : list string :=
  [".mp4"; ".mkv"; ".avi"; ".zip"; ".iso"].

Definition file_size_based_routing (path : string) (s : State)
  : option Backend * State :=
  let backends := get_healthy_backends s in
  match backends with
  | [] => (None, s)
  | _ :: _ =>
      let is_large_file :=
        existsb (endswith path) large_file_extensions
        || contains "video/" path in
      if is_large_file then (py_min (load s) backends, s)
      else round_robin s
  end.

Definition select_backend (path : string) (s : State)
  : option Backend * State :=
  if String.eqb (ALGORITHM s) "round-robin" then round_robin s
  else if String.eqb (ALGORITHM s) "least-connections"
       then (least_connections s, s)
  else if String.eqb (ALGORITHM s) "content-based"
       then content_based_routing path s
  else if String.eqb (ALGORITHM s) "file-size"
       then file_size_based_routing path s
  else round_robin s.

(** ** Per-request bookkeeping of [proxy] *)

(** A response body: the bytes of the backend's answer passed through, or
    [jsonify] of a flat dict. *)
Inductive Body :=
  | Raw (bytes : string)
  | Json (fields : list (string * string)).

(** What a route returns to the caller: a status code and a body. *)
Record Response := mkResponse {
  status_code : Z;
  content : Body
}.

(** The outcome of [requests.request(...)]: it returns the backend's
    response, or raises (connection refused, timeout, ...). *)
Inductive transport_result :=
  | Forwarded (resp : Response)
  | TransportError.

(** The inputs of one request that come from outside the program: the
    transport outcome, [time.time() - start_time] at the point where the
    duration is taken, and [datetime.now().strftime("%H:%M:%S")]. *)
Record Env := mkEnv {
  forward : transport_result;
  elapsed : Q;
  now : string
}.

(** [round(q)] to an integer, ties to even. *)
Definition round_half_even (q : Q) : Z :=
  let n := Qnum q in
  let d := Z.pos (Qden q) in
  let fl := n `div` d in
  let r := n `mod` d in
  if 2 * r <? d then fl
  else if d <? 2 * r then fl + 1
  else if Z.even fl then fl else fl + 1.

(** [round(q, 2)]. *)
Definition py_round2 (q : Q) : Q :=
  Qmake (round_half_even (Qmult q (inject_Z 100))) 100.

(** [round(x * 1000, 2)]: seconds to milliseconds. *)
Definition to_ms (x : Q) : Q := py_round2 (Qmult x (inject_Z 1000)).

(** Lines 162-168: the request type used for logging. *)
Definition request_type_of (path : string) : string :=
  if startswith path "video/" then "video"
  else if startswith path "api/" then "api"
  else if startswith path "image/" then "image"
  else "default".

(** Lines 157-159, one block under the lock. *)
Definition track (backend_name : string) (s : State) : State :=
  let s1 :=
    set_active_connections (dd_add (active_connections s) backend_name 1) s in
  set_total_requests (dd_add (total_requests s1) backend_name 1) s1.

(** [request_history.append(r)] followed by
    [if len(request_history) > 50: request_history.pop(0)]. *)
Definition history_append (r : RequestRecord) (h : list RequestRecord)
  : list RequestRecord :=
  let h' := h ++ [r] in
  if (50 <? length h')%nat then tail h' else h'.

(** Lines 183-198: the rest of the [try] body once the forward returned. *)
Definition record_success (env : Env) (backend : Backend) (path : string)
    (s : State) : State :=
  let duration := elapsed env in
  let s1 :=
    set_response_times (dl_append (response_times s) (name backend) duration) s in
  let request_type := request_type_of path in
  set_request_history
    (history_append
       (mkRecord (now env) ("/" +:+ path) request_type (name backend)
                 (to_ms duration) "success"
                 (String.eqb (type backend) request_type))
       (request_history s1))
    s1.

(** Lines 212-226: the [except Exception] handler. *)
Definition record_failure (env : Env) (backend : Backend) (path : string)
    (s : State) : State :=
  let duration := elapsed env in
  let s1 :=
    set_failed_requests (dd_add (failed_requests s) (name backend) 1) s in
  set_request_history
    (history_append
       (mkRecord (now env) ("/" +:+ path) (request_type_of path) (name backend)
                 (to_ms duration) "failed" false)
       (request_history s1))
    s1.

(** Lines 237-239: the [finally] block. *)
Definition release (backend_name : string) (s : State) : State :=
  set_active_connections (dd_add (active_connections s) backend_name (-1)) s.

Definition no_backend_response : Response :=
  mkResponse 503 (Json [("error", "No healthy backends available")]).

Definition bad_gateway_response (backend_name : string) : Response :=
  mkResponse 502
    (Json [("error", "Backend unavailable"); ("backend", backend_name)]).

(** Lines 170-239 for a request already selected and tracked:
    [try] / [except Exception] / [finally]. *)
Definition complete (env : Env) (backend : Backend) (path : string)
    (s : State) : State * Response :=
  let '(s1, resp) :=
    match forward env with
    | Forwarded r => (record_success env backend path s, r)
    | TransportError =>
        (record_failure env backend path s,
         bad_gateway_response (name backend))
    end in
  (release (name backend) s1, resp).

(** [proxy(path)] run from start to end without interleaving. *)
Definition proxy (env : Env) (path : string) (s : State) : State * Response :=
  match select_backend path s with
  | (None, s1) => (s1, no_backend_response)
  | (Some backend, s1) => complete env backend path (track (name backend) s1)
  end.

(** ** Statistics *)

(** [sum(xs)] on a list of floats. *)
Definition py_sum (xs : list Q) : Q := fold_left Qplus xs (inject_Z 0).

(** [sum(d.values())] on a [defaultdict(int)]. *)
Definition sum_values (d : gmap string Z) : Z :=
  map_fold (fun _ v acc => v + acc) 0 d.

(** The [avg_response_time_ms] expression of [stats] (and [avg_response]
    of [broadcast_metrics]). *)
Definition avg_response_time_ms (s : State) (backend_name : string) : Q :=
  match dl_get (response_times s) backend_name with
  | [] => inject_Z 0
  | _ :: _ =>
      let window := last_n 10 (dl_get (response_times s) backend_name) in
      py_round2
        (Qmult (Qdiv (py_sum window) (inject_Z (Z.of_nat (length window))))
               (inject_Z 1000))
  end.

Record BackendStats := mkBackendStats {
  st_name : string;
  st_url : string;
  st_type : string;
  st_healthy : bool;
  st_active_connections : Z;
  st_total_requests : Z;
  st_failed_requests : Z;
  st_avg_response_time_ms : Q
}.

Record Stats := mkStats {
  st_algorithm : string;
  st_backends : list BackendStats;
  st_sum_total_requests : Z;
  st_sum_total_failures : Z
}.

Definition backend_stats (s : State) (b : Backend) : BackendStats :=
  mkBackendStats (name b) (url b) (type b) (healthy b)
    (dd_get (active_connections s) (name b))
    (dd_get (total_requests s) (name b))
    (dd_get (failed_requests s) (name b))
    (avg_response_time_ms s (name b)).

Definition stats (s : State) : Stats :=
  mkStats (ALGORITHM s) (map (backend_stats s) (BACKENDS s))
          (sum_values (total_requests s)) (sum_values (failed_requests s)).

(** ** Administrative control *)

Definition valid : list string :=
  ["round-robin"; "least-connections"; "content-based"; "file-size"].

(** What [request.json] is when the view runs. *)
Inductive request_json :=
  | JsonRefused (code : Z)
    (* [request.json] itself raises the HTTP error with this code, such as
       415 for a request without a JSON body *)
  | JsonNotDict
    (* null, a list, a number or a string: it has no [get] *)
  | JsonDict (algorithm : option string).
    (* a JSON object; [algorithm] is [data.get('algorithm')] when that is
       a string, [None] when the key is absent or holds anything else *)

(** What the caller of a view gets: the response the view returned, or,
    when an exception left the view, the error page of Flask with its
    status: 500 for an exception of the code, the code of the HTTP error
    otherwise. *)
Inductive view_result :=
  | Replied (resp : Response)
  | Aborted (code : Z).

Definition reply_status (r : view_result) : Z :=
  match r with
  | Replied resp => status_code resp
  | Aborted code => code
  end.

(** [change_algorithm()]. *)
Definition change_algorithm (body : request_json) (s : State)
  : State * view_result :=
  match body with
  | JsonRefused code => (s, Aborted code)
  | JsonNotDict => (s, Aborted 500)
  | JsonDict new_algo =>
      match new_algo with
      | Some a =>
          if bool_decide (a ∈ valid)
          then (set_ALGORITHM a s,
                Replied (mkResponse 200
                           (Json [("message", "Algorithm changed to " +:+ a)])))
          else (s, Replied (mkResponse 400 (Json [("error", "Invalid algorithm")])))
      | None =>
          (s, Replied (mkResponse 400 (Json [("error", "Invalid algorithm")])))
      end
  end.

(** ** Health checking *)

(** The outcome of [requests.get(url + "/health", timeout=3)]: a response
    with a status code, or an exception (timeout, connection error). *)
Inductive probe_result :=
  | ProbeStatus (code : Z)
  | ProbeRaised.

Definition set_healthy (h : bool) (b : Backend) : Backend :=
  mkBackend (name b) (url b) (type b) h (color b).

(** The body of the [for backend in BACKENDS] loop for one backend. *)
Definition probe (r : probe_result) (b : Backend) : Backend :=
  match r with
  | ProbeStatus code => set_healthy (code =? 200) b
  | ProbeRaised => set_healthy false b
  end.

(** The loop body applied to the backend at position [i]. *)
Definition health_check_at (i : nat) (r : probe_result) (s : State) : State :=
  set_BACKENDS (alter (probe r) i (BACKENDS s)) s.

(** One iteration of [while True]: every backend is probed in turn;
    [results] gives the outcome of the probe of each backend. *)
Definition health_check (results : Backend → probe_result) (s : State)
  : State :=
  set_BACKENDS (map (fun b => probe (results b) b) (BACKENDS s)) s.

(** ** Interleaving semantics

    Flask serves every request on a thread of its own, and the health
    checker is one more thread.  A request thread is at one of four
    points of [proxy]; between two points it performs one atomic action on
    the shared globals.  The health checker changes one flag per step, and
    the policy can be switched at any time. *)

Inductive pc :=
  | Selected                  (* [select_backend] returned, lock not yet taken *)
  | Tracked                   (* counters bumped, inside [requests.request] *)
  | Raised                    (* the forward raised, handler not yet run *)
  | Leaving (resp : Response). (* [try] body or handler done, [finally] pending *)

Record Thread := mkThread {
  t_backend : Backend;
  t_path : string;
  t_pc : pc
}.

Record System := mkSystem {
  sys_state : State;
  sys_threads : list Thread
}.

(** The module as loaded, for a given [BACKENDS] table. *)
Definition init_state (bs : list Backend) : State :=
  mkState bs ∅ ∅ ∅ ∅ [] 0 "content-based".

Definition init (bs : list Backend) : System := mkSystem (init_state bs) [].

Inductive step : System → System → Prop :=
  | step_reject path s s' ts :
      select_backend path s = (None, s') →
      step (mkSystem s ts) (mkSystem s' ts)
  | step_select path s s' b ts :
      select_backend path s = (Some b, s') →
      step (mkSystem s ts) (mkSystem s' (ts ++ [mkThread b path Selected]))
  | step_track s b p ts1 ts2 :
      step (mkSystem s (ts1 ++ mkThread b p Selected :: ts2))
           (mkSystem (track (name b) s) (ts1 ++ mkThread b p Tracked :: ts2))
  | step_forward_ok env r s b p ts1 ts2 :
      forward env = Forwarded r →
      step (mkSystem s (ts1 ++ mkThread b p Tracked :: ts2))
           (mkSystem (record_success env b p s)
                     (ts1 ++ mkThread b p (Leaving r) :: ts2))
  | step_forward_raise s b p ts1 ts2 :
      step (mkSystem s (ts1 ++ mkThread b p Tracked :: ts2))
           (mkSystem s (ts1 ++ mkThread b p Raised :: ts2))
  | step_handler env s b p ts1 ts2 :
      step (mkSystem s (ts1 ++ mkThread b p Raised :: ts2))
           (mkSystem (record_failure env b p s)
                     (ts1 ++ mkThread b p
                               (Leaving (bad_gateway_response (name b))) :: ts2))
  | step_finally r s b p ts1 ts2 :
      step (mkSystem s (ts1 ++ mkThread b p (Leaving r) :: ts2))
           (mkSystem (release (name b) s) (ts1 ++ ts2))
  | step_health i r s ts :
      step (mkSystem s ts) (mkSystem (health_check_at i r s) ts)
  | step_change_algorithm body s ts :
      step (mkSystem s ts) (mkSystem (fst (change_algorithm body s)) ts).

(** The systems some execution of the program can be in. *)
Definition reachable (bs : list Backend) (sys : System) : Prop :=
  rtc step (init bs) sys.

(** A thread holds a connection from the increment of line 158 to the
    decrement of line 239. *)
Definition holds_connection (p : pc) : bool :=
  match p with
  | Selected => false
  | _ => true
  end.

(** A thread whose request has been counted in [total_requests] and whose
    outcome is still open. *)
Definition outcome_open (p : pc) : bool :=
  match p with
  | Tracked | Raised => true
  | _ => false
  end.

(** The number of threads routed to backend [n] whose point satisfies [P]. *)
Definition count_on (P : pc → bool) (n : string) (ts : list Thread) : Z :=
  Z.of_nat
    (length (List.filter (fun t => P (t_pc t) && String.eqb (name (t_backend t)) n)
                         ts)).

(** The number of threads whose point satisfies [P]. *)
Definition count_all (P : pc → bool) (ts : list Thread) : Z :=
  Z.of_nat (length (List.filter (fun t => P (t_pc t)) ts)).

(** The bookkeeping invariant of the interleaving semantics: every
    active-connection counter is the number of threads that hold a
    connection on that backend, their sum is the number of such threads,
    and the failures counted against a backend plus its requests whose
    outcome is still open do not exceed its total. *)
Definition counters_inv (sys : System) : Prop :=
  (∀ n, dd_get (active_connections (sys_state sys)) n
        = count_on holds_connection n (sys_threads sys))
  ∧ sum_values (active_connections (sys_state sys))
    = count_all holds_connection (sys_threads sys)
  ∧ (∀ n, 0 ≤ dd_get (failed_requests (sys_state sys)) n
          ∧ dd_get (failed_requests (sys_state sys)) n
            + count_on outcome_open n (sys_threads sys)
            ≤ dd_get (total_requests (sys_state sys)) n).

(** ** Runs and auxiliary notions used by the statements *)

(** [n] successive calls of [round_robin()], with the backends returned. *)
Fixpoint rr_run (n : nat) (s : State) : list (option Backend) * State :=
  match n with
  | O => ([], s)
  | S n' =>
      let '(b, s1) := round_robin s in
      let '(bs, s2) := rr_run n' s1 in
      (b :: bs, s2)
  end.

(** The positions in a healthy list of length [K] that [n] successive
    round-robin selections starting at cursor [c] pick. *)
Definition rr_indices (c : Z) (K n : nat) : list nat :=
  map (fun k => Z.to_nat ((c + Z.of_nat k) `mod` Z.of_nat K)) (seq 0 n).

(** How often position [i] occurs in a list of positions. *)
Definition occurrences (i : nat) (l : list nat) : Z :=
  Z.of_nat (length (List.filter (Nat.eqb i) l)).

(** The affinity the [if]/[elif] chain of [content_based_routing] looks
    for, [None] when the path has none of the three prefixes. *)
Definition affinity_of (path : string) : option string :=
  if startswith path "video/" then Some "video"
  else if startswith path "api/" then Some "api"
  else if startswith path "image/" then Some "image"
  else None.

(** The healthy backends whose declared type is [ty]. *)
Definition matching (ty : string) (s : State) : list Backend :=
  List.filter (fun b => String.eqb (type b) ty) (get_healthy_backends s).

(** A sequence of requests served one after the other. *)
Fixpoint proxy_all (reqs : list (Env * string)) (s : State) : State :=
  match reqs with
  | [] => s
  | (env, path) :: reqs' => proxy_all reqs' (fst (proxy env path s))
  end.

(** The trailing-latency window as the specification words it: a buffer
    of capacity 10 from which the oldest entry is evicted when a duration
    is appended to a full buffer. *)
Definition spec_window_push (w : list Q) (d : Q) : list Q :=
  if (length w <? 10)%nat then w ++ [d] else tail w ++ [d].

(** The window the specification's buffer holds after the durations [ds]
    were appended in order to an empty buffer. *)
Definition spec_window (ds : list Q) : list Q :=
  fold_left spec_window_push ds [].

(** The mean the [stats] expression takes of a non-empty window. *)
Definition mean_ms (window : list Q) : Q :=
  py_round2
    (Qmult (Qdiv (py_sum window) (inject_Z (Z.of_nat (length window))))
           (inject_Z 1000)).

(** A failed probe as the specification lists the failures: a non-2xx
    status, a timeout or a connection error; every other probe is a
    successful one. *)
Definition spec_probe_failed (r : probe_result) : bool :=
  match r with
  | ProbeStatus code => negb ((200 <=? code) && (code <? 300))
  | ProbeRaised => true
  end.

(** The policy names as the specification lists them. *)
Definition spec_policies : list string :=
  ["round-robin"; "least-connections"; "content-based"; "file-size-based"].

(** The [BACKENDS] table of the source. *)
Definition ServerA : Backend :=
  mkBackend "ServerA" "http://localhost:5001" "video" true "#FF6B6B".
Definition ServerB : Backend :=
  mkBackend "ServerB" "http://localhost:5002" "api" true "#4ECDC4".
Definition ServerC : Backend :=
  mkBackend "ServerC" "http://localhost:5003" "image" true "#95E1D3".
Definition BACKENDS_0 : list Backend := [ServerA; ServerB; ServerC].

(** The module state right after loading. *)
Definition state_0 : State := init_state BACKENDS_0.

(** The state after a health-check pass in which every probe raised. *)
Definition state_all_down : State :=
  health_check (fun _ => ProbeRaised) state_0.

(** A request whose forward returns 200 after a tenth of a second. *)
Definition env_ok : Env :=
  mkEnv (Forwarded (mkResponse 200 (Raw "ok"))) (1 # 10)%Q "12:00:00".

(** A request whose forward raises after the ten-second timeout. *)
Definition env_timeout : Env := mkEnv TransportError (inject_Z 10) "12:00:10".

(** The state after eleven video requests served one after the other. *)
Definition state_11 : State :=
  proxy_all (repeat (env_ok, "video/a.mp4") 11) state_0.

(** A system in which one request for a video has been selected and
    tracked and is being forwarded to [ServerA]. *)
Definition system_1 : System :=
  mkSystem (track "ServerA" state_0) [mkThread ServerA "video/a.mp4" Tracked].

(** The same request after its forward raised and the handler ran. *)
Definition system_2 : System :=
  mkSystem
    (record_failure env_timeout ServerA "video/a.mp4" (track "ServerA" state_0))
    [mkThread ServerA "video/a.mp4" (Leaving (bad_gateway_response "ServerA"))].

(** A table with a second video server next to the three of the source,
    while one request is being forwarded to [ServerA]. *)
Definition ServerD : Backend :=
  mkBackend "ServerD" "http://localhost:5004" "video" true "#F38181".
Definition state_two_video : State :=
  track "ServerA" (init_state [ServerA; ServerB; ServerC; ServerD]).

(** ** The rest of the module *)

(** The test [is_large_file] of [file_size_based_routing]. *)
Definition is_large_file (path : string) : bool :=
  existsb (endswith path) large_file_extensions || contains "video/" path.

(** One entry of the ["backends"] list that [broadcast_metrics] emits. *)
Record BackendMetrics := mkBackendMetrics {
  bm_name : string;
  bm_type : string;
  bm_healthy : bool;
  bm_active : Z;
  bm_total : Z;
  bm_failed : Z;
  bm_avg_response : Q;
  bm_color : string
}.

(** The [metrics_data] dict of [broadcast_metrics]. *)
Record Metrics := mkMetrics {
  m_algorithm : string;
  m_backends : list BackendMetrics;
  m_recent_requests : list RequestRecord
}.

Definition backend_metrics (s : State) (b : Backend) : BackendMetrics :=
  mkBackendMetrics (name b) (type b) (healthy b)
    (dd_get (active_connections s) (name b))
    (dd_get (total_requests s) (name b))
    (dd_get (failed_requests s) (name b))
    (avg_response_time_ms s (name b))
    (color b).

(** What [broadcast_metrics()] hands to [socketio.emit]. *)
Definition broadcast_metrics (s : State) : Metrics :=
  mkMetrics (ALGORITHM s) (map (backend_metrics s) (BACKENDS s))
            (last_n 20 (request_history s)).

(** The [for backend in BACKENDS] loop of [health_check], one backend
    after the other from position [i] on: [fuel] bounds the number of
    iterations, and the probe of each backend is made when its turn
    comes. *)
Fixpoint health_check_loop (results : Backend → probe_result) (fuel i : nat)
    (s : State) : State :=
  match fuel with
  | O => s
  | S fuel' =>
      match BACKENDS s !! i with
      | Some b =>
          health_check_loop results fuel' (S i) (health_check_at i (results b) s)
      | None => s
      end
  end.

(** What identifies a backend: everything but its health flag. *)
Definition identity (b : Backend) : string * string * string * string :=
  (name b, url b, type b, color b).

(** The sum of a list of integers. *)
Definition sum_list (l : list Z) : Z := fold_right Z.add 0 l.

(** The number of requests of a run whose forward raises. *)
Definition failures_in (reqs : list (Env * string)) : Z :=
  Z.of_nat
    (length (List.filter
               (fun r => match forward (fst r) with
                         | TransportError => true
                         | Forwarded _ => false
                         end) reqs)).

(** Lines 147-159 of [proxy] as one thread runs them when no other
    thread acts in between: the selection and, when a backend was found,
    the increment of its counters; the forward is still to come.  The
    selection is made outside the lock, so this is one schedule among
    those of [step]; two requests can also both select before either
    increments. *)
Definition dispatch (path : string) (s : State) : State :=
  match select_backend path s with
  | (Some backend, s1) => track (name backend) s1
  | (None, s1) => s1
  end.

(** Requests dispatched strictly one after the other, each selected after
    the counters of the one before were incremented, and none of them
    completed yet. *)
Fixpoint dispatch_all (paths : list string) (s : State) : State :=
  match paths with
  | [] => s
  | path :: paths' => dispatch_all paths' (dispatch path s)
  end.

(** ** The backend server ([backend_server.py])

    One process per backend.  Flask's routing is the [request] type, the
    clock and [random.randint] are inputs, and [time.sleep] is not
    modelled.  A handler that raises makes Flask answer 500. *)
Module BackendServer.

(** [SERVER_NAME], [PORT] and [SERVER_TYPE], read from the command line. *)
Record Config := mkConfig {
  SERVER_NAME : string;
  PORT : Z;
  SERVER_TYPE : string
}.

(** The [stats] dict. *)
Record ServerStats := mkServerStats {
  total_requests : Z;
  video_requests : Z;
  api_requests : Z;
  image_requests : Z;
  start_time : Q
}.

(** The dict as the module creates it at time [t0]. *)
Definition initial_stats (t0 : Q) : ServerStats := mkServerStats 0 0 0 0 t0.

(** One row of [PROCESSING_TIMES]. *)
Definition times (video api image default : Q) : gmap string Q :=
  list_to_map
    [("video", video); ("api", api); ("image", image); ("default", default)].

Definition PROCESSING_TIMES : gmap string (gmap string Q) :=
  list_to_map
    [("video", times (5 # 100) (25 # 100) (15 # 100) (10 # 100));
     ("api", times (30 # 100) (3 # 100) (20 # 100) (15 # 100));
     ("image", times (25 # 100) (20 # 100) (4 # 100) (12 # 100));
     ("general", times (15 # 100) (15 # 100) (15 # 100) (15 # 100))]%Q.

(** [get_processing_time(request_type)]; [None] is the [KeyError] of
    [PROCESSING_TIMES[SERVER_TYPE]]. *)
Definition get_processing_time (cfg : Config) (request_type : string)
  : option Q :=
  match PROCESSING_TIMES !! SERVER_TYPE cfg with
  | None => None
  | Some row =>
      match row !! "default" with
      | None => None
      | Some fallback => Some (default fallback (row !! request_type))
      end
  end.

(** What a handler does: it returns a status code and a body, or raises. *)
Inductive result (A : Type) :=
  | Returned (status : Z) (body : A)
  | Raised.
Arguments Returned {A} status body.
Arguments Raised {A}.

(** The JSON bodies of the handlers. *)
Record HomeBody := mkHomeBody {
  hb_server : string;
  hb_type : string;
  hb_message : string;
  hb_timestamp : Q;
  hb_port : Z
}.

Record HealthBody := mkHealthBody {
  he_status : string;
  he_server : string;
  he_type : string;
  he_uptime_seconds : Q;
  he_total_requests : Z
}.

(** The body of [video], [api] and [image]: [cb_item] is the file name
    or the endpoint, [cb_random] the [size_mb], [size_kb] or [data.id]
    drawn by [random.randint]. *)
Record ContentBody := mkContentBody {
  cb_server : string;
  cb_server_type : string;
  cb_content_type : string;
  cb_item : string;
  cb_random : Z;
  cb_processing_time_ms : Q;
  cb_optimized : bool;
  cb_warning : option string
}.

Record StatsBody := mkStatsBody {
  sb_server : string;
  sb_type : string;
  sb_port : Z;
  sb_uptime_seconds : Q;
  sb_total_requests : Z;
  sb_video_requests : Z;
  sb_api_requests : Z;
  sb_image_requests : Z
}.

Inductive Body :=
  | BHome (b : HomeBody)
  | BHealth (b : HealthBody)
  | BContent (b : ContentBody)
  | BStats (b : StatsBody)
  | BMessage (message : string).

(** The routes of the application. *)
Inductive request :=
  | GetHome
  | GetHealth
  | GetVideo (filename : string)
  | GetApi (endpoint : string)
  | GetImage (filename : string)
  | GetStats
  | GetCrash.

Definition bump_total (st : ServerStats) : ServerStats :=
  mkServerStats (total_requests st + 1) (video_requests st) (api_requests st)
                (image_requests st) (start_time st).

Definition bump_video (st : ServerStats) : ServerStats :=
  mkServerStats (total_requests st) (video_requests st + 1) (api_requests st)
                (image_requests st) (start_time st).

Definition bump_api (st : ServerStats) : ServerStats :=
  mkServerStats (total_requests st) (video_requests st) (api_requests st + 1)
                (image_requests st) (start_time st).

Definition bump_image (st : ServerStats) : ServerStats :=
  mkServerStats (total_requests st) (video_requests st) (api_requests st)
                (image_requests st + 1) (start_time st).

Definition home (cfg : Config) (now : Q) (st : ServerStats)
  : ServerStats * result Body :=
  let st1 := bump_total st in
  match get_processing_time cfg "default" with
  | None => (st1, Raised)
  | Some _ =>
      (st1,
       Returned 200
         (BHome (mkHomeBody (SERVER_NAME cfg) (SERVER_TYPE cfg)
                   ("Hello from " +:+ SERVER_NAME cfg +:+ " ("
                    +:+ SERVER_TYPE cfg +:+ " server)")
                   now (PORT cfg))))
  end.

Definition health (cfg : Config) (now : Q) (st : ServerStats)
  : ServerStats * result Body :=
  let uptime := Qminus now (start_time st) in
  (st,
   Returned 200
     (BHealth (mkHealthBody "healthy" (SERVER_NAME cfg) (SERVER_TYPE cfg)
                 (py_round2 uptime) (total_requests st)))).

(** The common shape of [video], [api] and [image]: [kind] is the content
    type, [label] the word the warning starts with. *)
Definition content (kind label : string) (bump : ServerStats → ServerStats)
    (cfg : Config) (rand : Z) (item : string) (st : ServerStats)
  : ServerStats * result Body :=
  let st1 := bump (bump_total st) in
  match get_processing_time cfg kind with
  | None => (st1, Raised)
  | Some processing_time =>
      (st1,
       Returned 200
         (BContent
            (mkContentBody (SERVER_NAME cfg) (SERVER_TYPE cfg) kind item rand
               (to_ms processing_time)
               (String.eqb (SERVER_TYPE cfg) kind)
               (if String.eqb (SERVER_TYPE cfg) kind then None
                else Some ("⚠️  " +:+ label +:+ " request handled by "
                           +:+ SERVER_TYPE cfg +:+ " server (suboptimal)")))))
  end.

Definition video := content "video" "Video" bump_video.
Definition api := content "api" "API" bump_api.
Definition image := content "image" "Image" bump_image.

Definition server_stats (cfg : Config) (now : Q) (st : ServerStats)
  : ServerStats * result Body :=
  let uptime := Qminus now (start_time st) in
  (st,
   Returned 200
     (BStats (mkStatsBody (SERVER_NAME cfg) (SERVER_TYPE cfg) (PORT cfg)
                (py_round2 uptime) (total_requests st) (video_requests st)
                (api_requests st) (image_requests st)))).

(** [crash()] answers at once; the exit of the process a second later is
    not part of the handler. *)
Definition crash (cfg : Config) (st : ServerStats) : ServerStats * result Body :=
  (st,
   Returned 200 (BMessage (SERVER_NAME cfg +:+ " will crash in 1 second..."))).

(** One request: the route, the clock reading and the random draw. *)
Record Call := mkCall {
  call_request : request;
  call_now : Q;
  call_rand : Z
}.

Definition handle (cfg : Config) (c : Call) (st : ServerStats)
  : ServerStats * result Body :=
  match call_request c with
  | GetHome => home cfg (call_now c) st
  | GetHealth => health cfg (call_now c) st
  | GetVideo filename => video cfg (call_rand c) filename st
  | GetApi endpoint => api cfg (call_rand c) endpoint st
  | GetImage filename => image cfg (call_rand c) filename st
  | GetStats => server_stats cfg (call_now c) st
  | GetCrash => crash cfg st
  end.

(** The requests of a list served in order. *)
Fixpoint serve (cfg : Config) (calls : list Call) (st : ServerStats)
  : ServerStats :=
  match calls with
  | [] => st
  | c :: calls' => serve cfg calls' (fst (handle cfg c st))
  end.

(** Whether a route is counted in [total_requests]. *)
Definition counted (r : request) : bool :=
  match r with
  | GetHome | GetVideo _ | GetApi _ | GetImage _ => true
  | GetHealth | GetStats | GetCrash => false
  end.

(** The status code the client of a handler sees. *)
Definition status_of {A : Type} (r : result A) : Z :=
  match r with
  | Returned status _ => status
  | Raised => 500
  end.

End BackendServer.

(** ** The comparison client ([compare_algorithms.py])

    The load balancer the client talks to is a [State], or [None] when it
    cannot be reached; [results] is the dict of [send_test_requests], in
    the order of its keys. *)
Module CompareAlgorithms.

(** [response.ok] of [requests] for a response with the given status: no
    status from 400 to 599. *)
Definition ok (status : Z) : bool :=
  negb ((400 <=? status) && (status <? 600)).

(** [change_algorithm(algorithm)]: the POST to [/lb/algorithm] and the
    boolean returned; a load balancer that cannot be reached makes
    [requests.post] raise. *)
Definition change_algorithm (lb : option State) (algorithm : string)
  : option State * bool :=
  match lb with
  | None => (None, false)
  | Some s =>
      let '(s', response) := change_algorithm (JsonDict (Some algorithm)) s in
      (Some s', ok (reply_status response))
  end.

(** One entry of a [results] list. *)
Record Sample := mkSample {
  duration : Q;
  server : string;
  server_type : string;
  optimized : bool
}.

(** [a / n] for a length or a count [n]; [None] is [ZeroDivisionError]. *)
Definition div_count (a : Q) (n : Z) : option Q :=
  if n =? 0 then None else Some (Qdiv a (inject_Z n)).

(** [min(xs)] and [max(xs)] on floats; [None] is the [ValueError] on an
    empty list. *)
Definition q_min (xs : list Q) : option Q :=
  match xs with
  | [] => None
  | x :: xs' =>
      Some (fold_left (fun best y => if Qle_bool best y then best else y) xs' x)
  end.

Definition q_max (xs : list Q) : option Q :=
  match xs with
  | [] => None
  | x :: xs' =>
      Some (fold_left (fun best y => if Qle_bool y best then best else y) xs' x)
  end.

(** [server_counts] after the loop over [requests]. *)
Definition count_servers (requests : list Sample) : gmap string Z :=
  fold_left (fun counts req => dd_add counts (server req) 1) requests ∅.

(** What is printed for one request type. *)
Record TypeReport := mkTypeReport {
  tr_type : string;
  tr_total : nat;
  tr_distribution : list (string * Z * Q);
  tr_avg_latency : Q;
  tr_min_latency : Q;
  tr_max_latency : Q
}.

(** The body of the outer loop for a non-empty list of requests. *)
Definition analyze_type (req_type : string) (requests : list Sample)
  : option TypeReport :=
  let durations := map duration requests in
  distribution ←
    mapM (fun entry : string * Z =>
            share ← div_count (inject_Z entry.2) (Z.of_nat (length requests));
            Some (entry.1, entry.2, Qmult share (inject_Z 100)))
         (merge_sort (fun x y : string * Z => String.le x.1 y.1)
                     (map_to_list (count_servers requests)));
  avg ← div_count (py_sum durations) (Z.of_nat (length durations));
  shortest ← q_min durations;
  longest ← q_max durations;
  Some (mkTypeReport req_type (length requests) distribution
          (Qmult avg (inject_Z 1000)) (Qmult shortest (inject_Z 1000))
          (Qmult longest (inject_Z 1000))).

(** [all_requests], [optimized_count] and [total_count]. *)
Record Tally := mkTally {
  all_requests : list Sample;
  optimized_count : Z;
  total_count : Z
}.

(** What the inner loop does to the three accumulators for one request. *)
Definition tally_request (t : Tally) (req : Sample) : Tally :=
  mkTally (all_requests t ++ [req])
          (if optimized req then optimized_count t + 1 else optimized_count t)
          (total_count t + 1).

(** The outer loop. *)
Fixpoint analyze_types (results : list (string * list Sample)) (t : Tally)
  : option (list TypeReport * Tally) :=
  match results with
  | [] => Some ([], t)
  | (req_type, requests) :: rest =>
      match requests with
      | [] => analyze_types rest t
      | _ :: _ =>
          report ← analyze_type req_type requests;
          later ← analyze_types rest (fold_left tally_request requests t);
          Some (report :: later.1, later.2)
      end
  end.

(** The dict [analyze_results] returns. *)
Record Summary := mkSummary {
  sm_algorithm : string;
  sm_avg_latency : Q;
  sm_optimization_rate : Q;
  sm_total_requests : Z
}.

(** [analyze_results(algorithm_name, results)]: the printed reports and
    the returned summary; [None] when an exception escapes. *)
Definition analyze_results (algorithm_name : string)
    (results : list (string * list Sample))
  : option (list TypeReport * Summary) :=
  analysed ← analyze_types results (mkTally [] 0 0);
  let t := analysed.2 in
  match all_requests t with
  | [] =>
      Some (analysed.1,
            mkSummary algorithm_name (inject_Z 0) (inject_Z 0) (total_count t))
  | _ :: _ =>
      avg ← div_count (py_sum (map duration (all_requests t)))
                      (Z.of_nat (length (all_requests t)));
      rate ← (if 0 <? total_count t
              then share ← div_count (inject_Z (optimized_count t))
                                     (total_count t);
                   Some (Qmult share (inject_Z 100))
              else Some (inject_Z 0));
      Some (analysed.1,
            mkSummary algorithm_name (Qmult avg (inject_Z 1000)) rate
                      (total_count t))
  end.

(** The number of samples flagged [optimized]. *)
Definition optimized_in (requests : list Sample) : Z :=
  Z.of_nat (length (List.filter optimized requests)).

End CompareAlgorithms.

(** * Properties *)

(** ** Counters *)

Lemma dd_get_add_eq (d : gmap string Z) (k : string) (n : Z) :
  dd_get (dd_add d k n) k = dd_get d k + n.
Proof. unfold dd_get, dd_add. by rewrite lookup_insert_eq. Qed.

Lemma dd_get_add_ne (d : gmap string Z) (k k' : string) (n : Z) :
  k ≠ k' → dd_get (dd_add d k n) k' = dd_get d k'.
Proof. intros Hne. unfold dd_get, dd_add. by rewrite lookup_insert_ne. Qed.

Lemma dd_get_add (d : gmap string Z) (k k' : string) (n : Z) :
  dd_get (dd_add d k n) k' =
  dd_get d k' + (if String.eqb k k' then n else 0).
Proof.
  destruct (String.eqb_spec k k') as [->|Hne].
  - apply dd_get_add_eq.
  - rewrite dd_get_add_ne by done. lia.
Qed.

Lemma sum_values_insert_fresh (d : gmap string Z) (k : string) (v : Z) :
  d !! k = None → sum_values (<[k := v]> d) = v + sum_values d.
Proof.
  intros Hk. unfold sum_values.
  rewrite map_fold_insert_L; [done | intros; lia | done].
Qed.

Lemma sum_values_add (d : gmap string Z) (k : string) (n : Z) :
  sum_values (dd_add d k n) = sum_values d + n.
Proof.
  unfold dd_add, dd_get.
  destruct (d !! k) as [v|] eqn:Hk; simpl.
  - rewrite <- (insert_delete_eq d k (v + n)).
    rewrite sum_values_insert_fresh by apply lookup_delete_eq.
    rewrite <- (insert_delete_id d k v Hk) at 2.
    rewrite sum_values_insert_fresh by apply lookup_delete_eq.
    lia.
  - rewrite sum_values_insert_fresh by done. lia.
Qed.

(** ** [min] with a key *)

Section MinFrom.
Context {A : Type} (key : A → Z).

(** The result of [min_from] sits at some position of [best :: xs], no
    element has a smaller key, and every element before that position
    has a strictly larger key. *)
Lemma min_from_spec (xs : list A) (best : A) :
  ∃ i : nat,
    (best :: xs) !! i = Some (min_from key best xs)
    ∧ (∀ j y, (best :: xs) !! j = Some y → key (min_from key best xs) ≤ key y)
    ∧ (∀ j y, (j < i)%nat → (best :: xs) !! j = Some y →
              key (min_from key best xs) < key y).
Proof.
  revert best. induction xs as [|x xs IH]; intros best; simpl.
  - exists 0%nat. split; [done|]. split.
    + intros [|j] y Hj; simplify_eq/=; lia.
    + intros j y Hlt. lia.
  - destruct (Z.ltb_spec (key x) (key best)) as [Hlt|Hge].
    + destruct (IH x) as (i & Hi & Hmin & Hfirst).
      exists (S i). split; [done|]. split.
      * intros [|j] y Hj; simplify_eq/=.
        -- specialize (Hmin 0%nat x eq_refl). lia.
        -- by eapply Hmin.
      * intros [|j] y Hji Hj; simplify_eq/=.
        -- specialize (Hmin 0%nat x eq_refl). lia.
        -- eapply Hfirst; [|done]. lia.
    + destruct (IH best) as (i & Hi & Hmin & Hfirst).
      destruct i as [|i].
      * exists 0%nat. simpl in *. split; [done|]. split.
        -- intros [|[|j]] y Hj; simplify_eq/=.
           ++ by apply (Hmin 0%nat).
           ++ specialize (Hmin 0%nat best eq_refl). lia.
           ++ by apply (Hmin (S j)).
        -- intros j y Hj. lia.
      * exists (S (S i)). simpl in *. split; [done|]. split.
        -- intros [|[|j]] y Hj; simplify_eq/=.
           ++ by apply (Hmin 0%nat).
           ++ specialize (Hmin 0%nat best eq_refl). lia.
           ++ by apply (Hmin (S j)).
        -- intros [|[|j]] y Hji Hj; simplify_eq/=.
           ++ apply (Hfirst 0%nat); [lia|done].
           ++ specialize (Hfirst 0%nat best ltac:(lia) eq_refl). lia.
           ++ apply (Hfirst (S j)); [lia|done].
Qed.

Lemma py_min_spec (xs : list A) :
  xs ≠ [] →
  ∃ (b : A) (i : nat),
    py_min key xs = Some b
    ∧ xs !! i = Some b
    ∧ (∀ j y, xs !! j = Some y → key b ≤ key y)
    ∧ (∀ j y, (j < i)%nat → xs !! j = Some y → key b < key y).
Proof.
  destruct xs as [|x xs]; [done|]. intros _.
  destruct (min_from_spec xs x) as (i & Hi & Hmin & Hfirst).
  exists (min_from key x xs), i. by repeat split.
Qed.

Lemma py_min_is_Some (xs : list A) : xs ≠ [] → is_Some (py_min key xs).
Proof. destruct xs; [done|]. by eexists. Qed.
End MinFrom.

(** ** Filtering keeps the declaration order *)

Lemma filter_lookup_order {A : Type} (P : A → bool) (l : list A) (i : nat) (b : A) :
  List.filter P l !! i = Some b →
  ∃ i' : nat,
    l !! i' = Some b ∧ P b = true
    ∧ ∀ j' y, (j' < i')%nat → l !! j' = Some y → P y = true →
              ∃ j, (j < i)%nat ∧ List.filter P l !! j = Some y.
Proof.
  revert i. induction l as [|x l IH]; intros i Hi; simpl in *; [done|].
  destruct (P x) eqn:Hx.
  - destruct i as [|i]; simpl in *.
    + simplify_eq. exists 0%nat. repeat split; [done|]. intros; lia.
    + destruct (IH i Hi) as (i' & Hl & HP & Hbefore).
      exists (S i'). repeat split; [done..|].
      intros [|j'] y Hlt Hy HPy; simplify_eq/=.
      * exists 0%nat. split; [lia|done].
      * destruct (Hbefore j' y) as (j & Hj & Hfj); [lia|done..|].
        exists (S j). split; [lia|done].
  - destruct (IH i Hi) as (i' & Hl & HP & Hbefore).
    exists (S i'). repeat split; [done..|].
    intros [|j'] y Hlt Hy HPy; simpl in *.
    + congruence.
    + apply (Hbefore j' y); [lia|done..].
Qed.

Lemma filter_lookup_elem {A : Type} (P : A → bool) (l : list A) (i : nat) (y : A) :
  l !! i = Some y → P y = true → y ∈ List.filter P l.
Proof.
  intros Hi HP. apply list_elem_of_In, filter_In. split; [|done].
  apply list_elem_of_In, list_elem_of_lookup. eauto.
Qed.

(** ** Round-robin *)

Lemma round_robin_nonempty (s : State) :
  get_healthy_backends s ≠ [] →
  ∃ b : Backend,
    get_healthy_backends s
      !! Z.to_nat (current_index s `mod` Z.of_nat (length (get_healthy_backends s)))
    = Some b
    ∧ round_robin s = (Some b, set_current_index (current_index s + 1) s).
Proof.
  intros Hne. unfold round_robin.
  destruct (get_healthy_backends s) as [|b0 bs] eqn:Hhs; [done|].
  set (K := Z.of_nat (length (b0 :: bs))).
  assert (0 < K) as HK by (subst K; simpl; lia).
  pose proof (Z.mod_pos_bound (current_index s) K HK) as Hbound.
  destruct (lookup_lt_is_Some_2 (b0 :: bs) (Z.to_nat (current_index s `mod` K)))
    as [b Hb]; [subst K; lia|].
  exists b. by rewrite Hb.
Qed.

Lemma round_robin_empty (s : State) :
  get_healthy_backends s = [] → round_robin s = (None, s).
Proof. intros Hhs. unfold round_robin. by rewrite Hhs. Qed.

Lemma round_robin_healthy (s : State) :
  get_healthy_backends (snd (round_robin s)) = get_healthy_backends s.
Proof.
  unfold round_robin. by destruct (get_healthy_backends s) eqn:Hhs.
Qed.

(** ** Least-connections *)

(** C8. When some backend is healthy, [least_connections] returns a
    backend of [BACKENDS] whose health flag is set and whose
    active-connection count, [active_connections[name]] read with default
    0, is minimal among the healthy backends; among the minimal ones it is
    the first in declaration order: every healthy backend declared before
    it in [BACKENDS] has a strictly larger count.  So no strictly
    less-loaded healthy backend exists when a backend is chosen. *)
Theorem least_connections_first_minimal (s : State) :
  (∃ b0, b0 ∈ BACKENDS s ∧ healthy b0 = true) →
  ∃ (b : Backend) (i : nat),
    least_connections s = Some b
    ∧ BACKENDS s !! i = Some b
    ∧ healthy b = true
    ∧ (∀ b', b' ∈ BACKENDS s → healthy b' = true →
             default 0 (active_connections s !! name b)
             ≤ default 0 (active_connections s !! name b'))
    ∧ (∀ j b', (j < i)%nat → BACKENDS s !! j = Some b' → healthy b' = true →
               default 0 (active_connections s !! name b)
               < default 0 (active_connections s !! name b'))
    ∧ ¬ (∃ b', b' ∈ BACKENDS s ∧ healthy b' = true
               ∧ default 0 (active_connections s !! name b')
                 < default 0 (active_connections s !! name b)).
Proof.
  intros (b0 & Hb0 & Hh0).
  assert (get_healthy_backends s ≠ []) as Hne.
  { intros Hnil.
    assert (b0 ∈ get_healthy_backends s) as Hin
      by (apply list_elem_of_In, filter_In; split;
          [by apply list_elem_of_In|done]).
    rewrite Hnil in Hin. by apply elem_of_nil in Hin. }
  destruct (py_min_spec (load s) (get_healthy_backends s) Hne)
    as (b & i & Hmin & Hi & Hle & Hfirst).
  destruct (filter_lookup_order healthy (BACKENDS s) i b Hi)
    as (i' & Hi' & Hb & Hbefore).
  change (∀ j y, get_healthy_backends s !! j = Some y →
                 default 0 (active_connections s !! name b)
                 ≤ default 0 (active_connections s !! name y)) in Hle.
  change (∀ j y, (j < i)%nat → get_healthy_backends s !! j = Some y →
                 default 0 (active_connections s !! name b)
                 < default 0 (active_connections s !! name y)) in Hfirst.
  assert (∀ b', b' ∈ BACKENDS s → healthy b' = true →
                ∃ j, get_healthy_backends s !! j = Some b') as Hpos.
  { intros b' Hb' Hh'. apply list_elem_of_lookup, list_elem_of_In, filter_In.
    split; [by apply list_elem_of_In|done]. }
  exists b, i'. repeat split; try done.
  - unfold least_connections. by destruct (get_healthy_backends s).
  - intros b' Hb' Hh'. destruct (Hpos b' Hb' Hh') as [j Hj]. by eapply Hle.
  - intros j b' Hlt Hj Hb'.
    destruct (Hbefore j b' Hlt Hj Hb') as (k & Hk & Hfk). by eapply Hfirst.
  - intros (b' & Hb' & Hh' & Hlt).
    destruct (Hpos b' Hb' Hh') as [j Hj]. specialize (Hle j b' Hj). lia.
Qed.

Lemma least_connections_first_minimal_witness :
  (∃ b0, b0 ∈ BACKENDS (track "ServerA" state_0) ∧ healthy b0 = true)
  ∧ least_connections (track "ServerA" state_0) = Some ServerB
  ∧ ∃ (b : Backend) (i : nat),
      least_connections (track "ServerA" state_0) = Some b
      ∧ BACKENDS (track "ServerA" state_0) !! i = Some b
      ∧ healthy b = true
      ∧ (∀ b', b' ∈ BACKENDS (track "ServerA" state_0) → healthy b' = true →
               default 0 (active_connections (track "ServerA" state_0) !! name b)
               ≤ default 0 (active_connections (track "ServerA" state_0)
                            !! name b'))
      ∧ (∀ j b', (j < i)%nat →
                 BACKENDS (track "ServerA" state_0) !! j = Some b' →
                 healthy b' = true →
                 default 0 (active_connections (track "ServerA" state_0) !! name b)
                 < default 0 (active_connections (track "ServerA" state_0)
                              !! name b'))
      ∧ ¬ (∃ b', b' ∈ BACKENDS (track "ServerA" state_0) ∧ healthy b' = true
                 ∧ default 0 (active_connections (track "ServerA" state_0)
                              !! name b')
                   < default 0 (active_connections (track "ServerA" state_0)
                                !! name b)).
Proof.
  assert (∃ b0, b0 ∈ BACKENDS (track "ServerA" state_0) ∧ healthy b0 = true)
    as Hsome.
  { exists ServerA. split; [apply list_elem_of_here|reflexivity]. }
  split; [exact Hsome|]. split; [reflexivity|].
  exact (least_connections_first_minimal (track "ServerA" state_0) Hsome).
Defined.

Lemma least_connections_empty (s : State) :
  get_healthy_backends s = [] → least_connections s = None.
Proof. intros Hhs. unfold least_connections. by rewrite Hhs. Qed.

Lemma least_connections_is_Some (s : State) :
  get_healthy_backends s ≠ [] → is_Some (least_connections s).
Proof.
  intros Hne. unfold least_connections.
  destruct (get_healthy_backends s) eqn:Hhs; [done|].
  by apply py_min_is_Some.
Qed.

(** ** Content-based and file-size-based routing *)

Lemma round_robin_is_Some (s : State) :
  get_healthy_backends s ≠ [] → is_Some (fst (round_robin s)).
Proof.
  intros Hne. destruct (round_robin_nonempty s Hne) as (b & _ & ->). by eexists.
Qed.

Lemma affinity_arm_is_Some (s : State) (ty : string) :
  get_healthy_backends s ≠ [] →
  is_Some (fst (affinity_arm s (get_healthy_backends s) ty)).
Proof.
  intros Hne. unfold affinity_arm.
  destruct (List.filter _ _) eqn:Hf.
  - by apply round_robin_is_Some.
  - simpl. by eexists.
Qed.

Lemma content_based_routing_empty (path : string) (s : State) :
  get_healthy_backends s = [] → content_based_routing path s = (None, s).
Proof. intros Hhs. unfold content_based_routing. by rewrite Hhs. Qed.

Lemma content_based_routing_is_Some (path : string) (s : State) :
  get_healthy_backends s ≠ [] → is_Some (fst (content_based_routing path s)).
Proof.
  intros Hne. unfold content_based_routing.
  destruct (get_healthy_backends s) as [|b0 bs] eqn:Hhs; [done|].
  rewrite <- Hhs in *.
  repeat case_match; auto using affinity_arm_is_Some, round_robin_is_Some.
Qed.

Lemma file_size_based_routing_empty (path : string) (s : State) :
  get_healthy_backends s = [] → file_size_based_routing path s = (None, s).
Proof. intros Hhs. unfold file_size_based_routing. by rewrite Hhs. Qed.

Lemma file_size_based_routing_is_Some (path : string) (s : State) :
  get_healthy_backends s ≠ [] → is_Some (fst (file_size_based_routing path s)).
Proof.
  intros Hne. unfold file_size_based_routing.
  destruct (get_healthy_backends s) as [|b0 bs] eqn:Hhs; [done|].
  rewrite <- Hhs in *.
  case_match; [|by apply round_robin_is_Some].
  simpl. by apply py_min_is_Some.
Qed.

Lemma select_backend_empty (path : string) (s : State) :
  get_healthy_backends s = [] → select_backend path s = (None, s).
Proof.
  intros Hhs. unfold select_backend.
  repeat case_match;
    auto using round_robin_empty, content_based_routing_empty,
               file_size_based_routing_empty.
  by rewrite least_connections_empty.
Qed.

Lemma select_backend_is_Some (path : string) (s : State) :
  get_healthy_backends s ≠ [] → is_Some (fst (select_backend path s)).
Proof.
  intros Hne. unfold select_backend.
  repeat case_match; simpl;
    auto using round_robin_is_Some, content_based_routing_is_Some,
               file_size_based_routing_is_Some, least_connections_is_Some.
Qed.

(** ** Changing the routing policy *)

(** C4, as stated, fails: of the four names the specification lists,
    [file-size-based] is answered with 400 and the policy stays as it
    was. *)
Lemma change_algorithm_rejects_file_size_based :
  "file-size-based" ∈ spec_policies
  ∧ change_algorithm (JsonDict (Some "file-size-based")) state_0
    = (state_0, Replied (mkResponse 400 (Json [("error", "Invalid algorithm")])))
  ∧ ¬ (∀ a s, a ∈ spec_policies →
         ALGORITHM (fst (change_algorithm (JsonDict (Some a)) s)) = a
         ∧ reply_status (snd (change_algorithm (JsonDict (Some a)) s)) = 200).
Proof.
  assert ("file-size-based" ∈ spec_policies) as Hin.
  { unfold spec_policies. repeat constructor. }
  split; [exact Hin|]. split; [reflexivity|].
  intros Hclaim. destruct (Hclaim "file-size-based" state_0 Hin) as [_ Hcode].
  vm_compute in Hcode. discriminate.
Qed.

(** C4, amended. [change_algorithm] accepts exactly the four names
    [round-robin], [least-connections], [content-based] and [file-size]:
    for one of them the policy becomes that name, nothing else of the
    state changes and the answer is 200; for any other name the answer
    is 400 and the state, the policy included, is unchanged. *)
Theorem change_algorithm_accepts_valid (a : string) (s : State) :
  (a ∈ ["round-robin"; "least-connections"; "content-based"; "file-size"] →
   change_algorithm (JsonDict (Some a)) s
   = (set_ALGORITHM a s,
      Replied (mkResponse 200 (Json [("message", "Algorithm changed to " +:+ a)])))
   ∧ ALGORITHM (fst (change_algorithm (JsonDict (Some a)) s)) = a
   ∧ reply_status (snd (change_algorithm (JsonDict (Some a)) s)) = 200)
  ∧ (a ∉ ["round-robin"; "least-connections"; "content-based"; "file-size"] →
     change_algorithm (JsonDict (Some a)) s
     = (s, Replied (mkResponse 400 (Json [("error", "Invalid algorithm")])))
     ∧ ALGORITHM (fst (change_algorithm (JsonDict (Some a)) s)) = ALGORITHM s
     ∧ reply_status (snd (change_algorithm (JsonDict (Some a)) s)) = 400).
Proof.
  fold valid. unfold change_algorithm. split.
  - intros Hin. by rewrite bool_decide_eq_true_2.
  - intros Hout. by rewrite bool_decide_eq_false_2.
Qed.

Lemma change_algorithm_accepts_valid_witness :
  "file-size" ∈ ["round-robin"; "least-connections"; "content-based"; "file-size"]
  ∧ change_algorithm (JsonDict (Some "file-size")) state_0
    = (set_ALGORITHM "file-size" state_0,
       Replied (mkResponse 200
                  (Json [("message", "Algorithm changed to " +:+ "file-size")])))
  ∧ ALGORITHM (fst (change_algorithm (JsonDict (Some "file-size")) state_0))
    = "file-size"
  ∧ reply_status (snd (change_algorithm (JsonDict (Some "file-size")) state_0))
    = 200.
Proof.
  assert ("file-size"
          ∈ ["round-robin"; "least-connections"; "content-based"; "file-size"])
    as Hin by (repeat constructor).
  split; [exact Hin|].
  exact (proj1 (change_algorithm_accepts_valid "file-size" state_0) Hin).
Defined.

(** What [change_algorithm] does with a body that names no policy: a JSON
    object without a string under [algorithm] is answered 400; a body
    that is not a JSON object makes [data.get] raise, which Flask turns
    into a 500; a body [request.json] refuses is answered by Flask.  The
    state is as before in every case. *)
Lemma change_algorithm_without_name (s : State) :
  change_algorithm (JsonDict None) s
  = (s, Replied (mkResponse 400 (Json [("error", "Invalid algorithm")])))
  ∧ change_algorithm JsonNotDict s = (s, Aborted 500)
  ∧ ∀ code, change_algorithm (JsonRefused code) s = (s, Aborted code).
Proof. done. Qed.

(** ** Health checking *)

(** C5, as stated, fails: a probe answered with 204 is none of the
    failures the specification lists, and it marks the backend
    unhealthy. *)
Lemma probe_204_marks_unhealthy :
  spec_probe_failed (ProbeStatus 204) = false
  ∧ healthy (probe (ProbeStatus 204) ServerA) = false
  ∧ ¬ (∀ r b, spec_probe_failed r = false → healthy (probe r b) = true).
Proof.
  split; [reflexivity|]. split; [reflexivity|].
  intros Hclaim. specialize (Hclaim (ProbeStatus 204) ServerA eq_refl).
  discriminate Hclaim.
Qed.

(** C5, amended. The health flag after a probe is a function of the
    probe's outcome alone, whatever the flag was before: status 200 marks
    the backend healthy; every other status, the other 2xx codes
    included, and a probe that raised (timeout, connection error) mark it
    unhealthy; the identity of the backend is untouched.  A failed probe
    followed by a probe answering 200 leaves the backend healthy, and the
    change shows in the very next [get_healthy_backends]. *)
Theorem probe_sets_health_flag (r : probe_result) (b : Backend) :
  healthy (probe r b)
  = match r with ProbeStatus code => code =? 200 | ProbeRaised => false end
  ∧ (name (probe r b), url (probe r b), type (probe r b), color (probe r b))
    = (name b, url b, type b, color b)
  ∧ healthy (probe (ProbeStatus 200) b) = true
  ∧ (∀ code, code ≠ 200 → healthy (probe (ProbeStatus code) b) = false)
  ∧ healthy (probe ProbeRaised b) = false
  ∧ healthy (probe (ProbeStatus 200) (probe r b)) = true
  ∧ (∀ s i, BACKENDS s !! i = Some b →
       BACKENDS (health_check_at i r s) !! i = Some (probe r b)
       ∧ (∀ j, j ≠ i → BACKENDS (health_check_at i r s) !! j = BACKENDS s !! j)
       ∧ (probe r b ∈ get_healthy_backends (health_check_at i r s)
          ↔ r = ProbeStatus 200)).
Proof.
  split; [by destruct r|]. split; [by destruct r|]. split; [done|].
  split.
  { intros code Hcode. simpl. by apply Z.eqb_neq. }
  split; [done|]. split; [done|].
  intros s i Hi. unfold health_check_at, get_healthy_backends. simpl.
  split; [|split].
  - by rewrite list_lookup_alter_eq, Hi.
  - intros j Hne. by rewrite list_lookup_alter_ne.
  - split.
    + intros Hin%list_elem_of_In%filter_In. destruct Hin as [_ Hh].
      destruct r as [code|]; simpl in Hh; [|done].
      apply Z.eqb_eq in Hh. by subst.
    + intros ->. eapply filter_lookup_elem; [|done].
      by rewrite list_lookup_alter_eq, Hi.
Qed.

Lemma probe_sets_health_flag_witness :
  BACKENDS state_0 !! 1%nat = Some ServerB
  ∧ BACKENDS (health_check_at 1 (ProbeStatus 503) state_0) !! 1%nat
    = Some (probe (ProbeStatus 503) ServerB)
  ∧ healthy (probe (ProbeStatus 503) ServerB) = false
  ∧ healthy (probe (ProbeStatus 200) (probe (ProbeStatus 503) ServerB)) = true.
Proof.
  pose proof (probe_sets_health_flag (ProbeStatus 503) ServerB)
    as (Hflag & _ & _ & _ & _ & Hback & Hat).
  split; [reflexivity|].
  split; [exact (proj1 (Hat state_0 1%nat eq_refl))|].
  split; [exact Hflag | exact Hback].
Defined.

(** ** Fairness of round-robin *)

Lemma set_current_index_twice (i j : Z) (s : State) :
  set_current_index i (set_current_index j s) = set_current_index i s.
Proof. done. Qed.

Lemma rr_indices_S (c : Z) (K n : nat) :
  rr_indices c K (S n)
  = Z.to_nat (c `mod` Z.of_nat K) :: rr_indices (c + 1) K n.
Proof.
  unfold rr_indices. simpl. rewrite Z.add_0_r. f_equal.
  rewrite <- seq_shift, map_map. apply map_ext. intros k.
  do 2 f_equal. lia.
Qed.

Lemma rr_indices_snoc (c : Z) (K n : nat) :
  rr_indices c K (S n)
  = rr_indices c K n ++ [Z.to_nat ((c + Z.of_nat n) `mod` Z.of_nat K)].
Proof. unfold rr_indices. by rewrite seq_S, map_app. Qed.

Lemma rr_indices_lookup (c : Z) (K n k : nat) :
  (k < n)%nat →
  rr_indices c K n !! k = Some (Z.to_nat ((c + Z.of_nat k) `mod` Z.of_nat K)).
Proof.
  intros Hk. unfold rr_indices.
  rewrite list_lookup_fmap, lookup_seq_lt by done. done.
Qed.

Lemma rr_run_indices (N : nat) (s : State) :
  get_healthy_backends s ≠ [] →
  rr_run N s
  = (map (fun i => get_healthy_backends s !! i)
         (rr_indices (current_index s) (length (get_healthy_backends s)) N),
     set_current_index (current_index s + Z.of_nat N) s).
Proof.
  revert s. induction N as [|N IH]; intros s Hne.
  - simpl. rewrite Z.add_0_r. by destruct s.
  - destruct (round_robin_nonempty s Hne) as (b & Hb & Hrr).
    cbn [rr_run]. rewrite Hrr.
    assert (get_healthy_backends (set_current_index (current_index s + 1) s)
            = get_healthy_backends s) as Hhs by done.
    rewrite IH by (by rewrite Hhs).
    rewrite Hhs, rr_indices_S. cbn [map]. rewrite Hb.
    rewrite set_current_index_twice. simpl. do 2 f_equal. lia.
Qed.

Lemma occurrences_snoc (i x : nat) (l : list nat) :
  occurrences i (l ++ [x])
  = occurrences i l + (if Nat.eqb i x then 1 else 0).
Proof.
  unfold occurrences. rewrite List.filter_app, length_app. simpl.
  destruct (Nat.eqb i x); simpl; lia.
Qed.

Lemma div_pred_step (a k : Z) :
  0 < k →
  a `div` k = (a - 1) `div` k + (if a `mod` k =? 0 then 1 else 0).
Proof.
  intros Hk. destruct (Z.eqb_spec (a `mod` k) 0) as [Hz|Hnz];
    Z.div_mod_to_equations; nia.
Qed.

Lemma mod_shift_zero (a i k : Z) :
  0 ≤ i < k → ((a - i) `mod` k = 0 ↔ a `mod` k = i).
Proof.
  intros Hi. split; intros Hm.
  - apply Z.mod_divide in Hm as [q Hq]; [|lia].
    replace a with (i + q * k) by lia.
    rewrite Z.mod_add by lia. apply Z.mod_small. lia.
  - rewrite <- Hm. rewrite Zminus_mod_idemp_r, Z.sub_diag. apply Z.mod_0_l. lia.
Qed.

(** Position [i] is picked once for every multiple of [K] in the range
    [c - i .. c + n - 1 - i]. *)
Lemma occurrences_rr_indices (c : Z) (K n i : nat) :
  (i < K)%nat →
  occurrences i (rr_indices c K n)
  = (c + Z.of_nat n - 1 - Z.of_nat i) `div` Z.of_nat K
    - (c - 1 - Z.of_nat i) `div` Z.of_nat K.
Proof.
  intros Hi. induction n as [|n IH].
  - unfold rr_indices, occurrences. simpl. rewrite Z.add_0_r. lia.
  - rewrite rr_indices_snoc, occurrences_snoc, IH.
    assert (0 < Z.of_nat K) as HK by lia.
    pose proof (Z.mod_pos_bound (c + Z.of_nat n) (Z.of_nat K) HK) as Hm.
    replace (c + Z.of_nat (S n) - 1 - Z.of_nat i)
      with (c + Z.of_nat n - Z.of_nat i) by lia.
    rewrite (div_pred_step (c + Z.of_nat n - Z.of_nat i) (Z.of_nat K) HK).
    replace (c + Z.of_nat n - Z.of_nat i - 1)
      with (c + Z.of_nat n - 1 - Z.of_nat i) by lia.
    pose proof (mod_shift_zero (c + Z.of_nat n) (Z.of_nat i) (Z.of_nat K)
                  ltac:(lia)) as Hshift.
    destruct (Nat.eqb_spec i (Z.to_nat ((c + Z.of_nat n) `mod` Z.of_nat K)))
      as [Heq|Hne];
      destruct (Z.eqb_spec ((c + Z.of_nat n - Z.of_nat i) `mod` Z.of_nat K) 0)
        as [Hz|Hnz]; lia.
Qed.

Lemma div_window (a n k : Z) :
  0 < k → 0 ≤ n →
  (a + n) `div` k - a `div` k = n `div` k
  ∨ (a + n) `div` k - a `div` k = (n + k - 1) `div` k.
Proof.
  intros Hk Hn.
  assert (n `mod` k = 0 ∨ n `mod` k ≠ 0) as [Hz|Hnz] by lia.
  - left. Z.div_mod_to_equations. nia.
  - assert ((n + k - 1) `div` k = n `div` k + 1) as ->
      by (Z.div_mod_to_equations; nia).
    assert (n `div` k ≤ (a + n) `div` k - a `div` k ≤ n `div` k + 1)
      by (Z.div_mod_to_equations; nia).
    lia.
Qed.

(** C7. Over a non-empty healthy list [hs] of length [K] and from any
    cursor value [c], [round_robin] returns the backend at position
    [c mod K] and increments the cursor.  [N] successive selections pick
    the positions [(c + k) mod K] for [k < N]: each selection is the
    cyclic successor of the one before, and every position of [hs], that
    is every healthy backend, is picked [N / K] times rounded down or
    rounded up. *)
Theorem round_robin_fair (s : State) (hs : list Backend) (c : Z) (N : nat) :
  get_healthy_backends s = hs → current_index s = c → hs ≠ [] →
  (∃ b : Backend,
     hs !! Z.to_nat (c `mod` Z.of_nat (length hs)) = Some b
     ∧ round_robin s = (Some b, set_current_index (c + 1) s))
  ∧ rr_run N s
    = (map (fun i => hs !! i) (rr_indices c (length hs) N),
       set_current_index (c + Z.of_nat N) s)
  ∧ (∀ k, (k < N)%nat →
       ∃ b : Backend,
         fst (rr_run N s) !! k = Some (Some b)
         ∧ hs !! Z.to_nat ((c + Z.of_nat k) `mod` Z.of_nat (length hs)) = Some b)
  ∧ (∀ k i, (S k < N)%nat → rr_indices c (length hs) N !! k = Some i →
       rr_indices c (length hs) N !! S k = Some ((i + 1) `mod` length hs)%nat)
  ∧ (∀ i, (i < length hs)%nat →
       occurrences i (rr_indices c (length hs) N)
       = Z.of_nat N `div` Z.of_nat (length hs)
       ∨ occurrences i (rr_indices c (length hs) N)
         = (Z.of_nat N + Z.of_nat (length hs) - 1) `div` Z.of_nat (length hs)).
Proof.
  intros Hhs Hc Hne.
  assert (0 < Z.of_nat (length hs)) as HK by (destruct hs; [done|simpl; lia]).
  assert (rr_run N s
          = (map (fun i => hs !! i) (rr_indices c (length hs) N),
             set_current_index (c + Z.of_nat N) s)) as Hrun.
  { rewrite rr_run_indices by (by rewrite Hhs). by rewrite Hhs, Hc. }
  split; [|split; [exact Hrun|split; [|split]]].
  - destruct (round_robin_nonempty s) as (b & Hb & Hrr); [by rewrite Hhs|].
    exists b. by rewrite <- Hhs, <- Hc.
  - intros k Hk. rewrite Hrun. cbn [fst].
    rewrite list_lookup_fmap, rr_indices_lookup by done. cbn [fmap option_fmap option_map].
    pose proof (Z.mod_pos_bound (c + Z.of_nat k) _ HK) as Hm.
    destruct (lookup_lt_is_Some_2 hs
                (Z.to_nat ((c + Z.of_nat k) `mod` Z.of_nat (length hs))))
      as [b Hb]; [lia|].
    exists b. by rewrite Hb.
  - intros k i Hk. rewrite !rr_indices_lookup by lia. intros [= <-].
    f_equal. apply Nat2Z.inj.
    pose proof (Z.mod_pos_bound (c + Z.of_nat k) _ HK) as Hm.
    pose proof (Z.mod_pos_bound (c + Z.of_nat (S k)) _ HK) as Hm'.
    rewrite Nat2Z.inj_mod, Nat2Z.inj_add, !Z2Nat.id by lia.
    rewrite Zplus_mod_idemp_l. f_equal. lia.
  - intros i Hi. rewrite occurrences_rr_indices by done.
    replace (c + Z.of_nat N - 1 - Z.of_nat i)
      with ((c - 1 - Z.of_nat i) + Z.of_nat N) by lia.
    apply div_window; lia.
Qed.

Lemma round_robin_fair_witness :
  get_healthy_backends state_0 = BACKENDS_0
  ∧ current_index state_0 = 0
  ∧ BACKENDS_0 ≠ []
  ∧ rr_run 7 state_0
    = (map (fun i => BACKENDS_0 !! i) (rr_indices 0 (length BACKENDS_0) 7),
       set_current_index (0 + Z.of_nat 7) state_0)
  ∧ (occurrences 0 (rr_indices 0 (length BACKENDS_0) 7) = 7 `div` 3
     ∨ occurrences 0 (rr_indices 0 (length BACKENDS_0) 7) = (7 + 3 - 1) `div` 3).
Proof.
  assert (BACKENDS_0 ≠ []) as Hne by done.
  pose proof (round_robin_fair state_0 BACKENDS_0 0 7 eq_refl eq_refl Hne)
    as (_ & Hrun & _ & _ & Hocc).
  split; [reflexivity|]. split; [reflexivity|]. split; [exact Hne|].
  split; [exact Hrun|]. exact (Hocc 0%nat ltac:(simpl; lia)).
Defined.

Example rr_run_cycle :
  map (fmap name) (fst (rr_run 7 state_0))
  = map Some ["ServerA"; "ServerB"; "ServerC"; "ServerA"; "ServerB"; "ServerC";
              "ServerA"].
Proof. reflexivity. Qed.

(** ** Counting threads *)

Lemma count_on_nil (P : pc → bool) (n : string) : count_on P n [] = 0.
Proof. done. Qed.

Lemma count_on_cons (P : pc → bool) (n : string) (t : Thread) (ts : list Thread) :
  count_on P n (t :: ts)
  = (if P (t_pc t) && String.eqb (name (t_backend t)) n then 1 else 0)
    + count_on P n ts.
Proof.
  unfold count_on. simpl.
  destruct (P (t_pc t) && String.eqb (name (t_backend t)) n); simpl; lia.
Qed.

Lemma count_on_app (P : pc → bool) (n : string) (ts1 ts2 : list Thread) :
  count_on P n (ts1 ++ ts2) = count_on P n ts1 + count_on P n ts2.
Proof. unfold count_on. rewrite List.filter_app, length_app. lia. Qed.

Lemma count_on_nonneg (P : pc → bool) (n : string) (ts : list Thread) :
  0 ≤ count_on P n ts.
Proof. unfold count_on. lia. Qed.

Lemma count_all_nil (P : pc → bool) : count_all P [] = 0.
Proof. done. Qed.

Lemma count_all_cons (P : pc → bool) (t : Thread) (ts : list Thread) :
  count_all P (t :: ts) = (if P (t_pc t) then 1 else 0) + count_all P ts.
Proof. unfold count_all. simpl. destruct (P (t_pc t)); simpl; lia. Qed.

Lemma count_all_app (P : pc → bool) (ts1 ts2 : list Thread) :
  count_all P (ts1 ++ ts2) = count_all P ts1 + count_all P ts2.
Proof. unfold count_all. rewrite List.filter_app, length_app. lia. Qed.

(** ** What each action does to the state *)

Lemma round_robin_state (s : State) :
  ∃ i, snd (round_robin s) = set_current_index i s.
Proof.
  unfold round_robin. destruct (get_healthy_backends s).
  - exists (current_index s). by destruct s.
  - by eexists.
Qed.

Lemma select_backend_state (path : string) (s : State) :
  ∃ i, snd (select_backend path s) = set_current_index i s.
Proof.
  assert (∃ i, s = set_current_index i s) as Hsame
    by (exists (current_index s); by destruct s).
  unfold select_backend, content_based_routing, file_size_based_routing,
    affinity_arm.
  repeat case_match; simpl; auto using round_robin_state.
Qed.

Lemma change_algorithm_state (new_algo : request_json) (s : State) :
  ∃ a, fst (change_algorithm new_algo s) = set_ALGORITHM a s.
Proof.
  assert (∃ a, s = set_ALGORITHM a s) as Hsame
    by (exists (ALGORITHM s); by destruct s).
  unfold change_algorithm. repeat case_match; simpl; eauto.
Qed.

(** ** The bookkeeping invariant *)

Lemma counters_inv_init (bs : list Backend) : counters_inv (init bs).
Proof.
  unfold counters_inv, init, init_state, dd_get. simpl.
  split; [|split]; [intros n|..|intros n];
    rewrite ?lookup_empty; simpl; try done.
Qed.

Ltac count_threads :=
  rewrite ?count_on_app, ?count_on_cons, ?count_on_nil,
    ?count_all_app, ?count_all_cons, ?count_all_nil in *;
  cbn [t_pc t_backend holds_connection outcome_open andb] in *.

Lemma counters_inv_step (sys sys' : System) :
  step sys sys' → counters_inv sys → counters_inv sys'.
Proof.
  unfold counters_inv.
  destruct 1 as [path s s' ts Hsel | path s s' b ts Hsel | s b p ts1 ts2
                 | env r s b p ts1 ts2 Hfw | s b p ts1 ts2
                 | env s b p ts1 ts2 | r s b p ts1 ts2 | i r s ts
                 | new_algo s ts];
    cbn [sys_state sys_threads]; intros (Hact & Hsum & Hfail).
  - destruct (select_backend_state path s) as [i Hi].
    rewrite Hsel in Hi. simpl in Hi. by subst s'.
  - destruct (select_backend_state path s) as [i Hi].
    rewrite Hsel in Hi. simpl in Hi. subst s'. simpl.
    split; [|split]; [intros n; specialize (Hact n)| |intros n; specialize (Hfail n)];
      count_threads; repeat case_match; lia.
  - unfold track. simpl.
    split; [|split]; [intros n; specialize (Hact n)| |intros n; specialize (Hfail n)];
      rewrite ?dd_get_add, ?sum_values_add; count_threads;
      repeat case_match; lia.
  - unfold record_success. simpl.
    split; [|split]; [intros n; specialize (Hact n)| |intros n; specialize (Hfail n)];
      count_threads; repeat case_match; lia.
  - split; [|split]; [intros n; specialize (Hact n)| |intros n; specialize (Hfail n)];
      count_threads; repeat case_match; lia.
  - unfold record_failure. simpl.
    split; [|split]; [intros n; specialize (Hact n)| |intros n; specialize (Hfail n)];
      rewrite ?dd_get_add; count_threads; repeat case_match; lia.
  - unfold release. simpl.
    split; [|split]; [intros n; specialize (Hact n)| |intros n; specialize (Hfail n)];
      rewrite ?dd_get_add, ?sum_values_add; count_threads;
      repeat case_match; lia.
  - done.
  - destruct (change_algorithm_state new_algo s) as [a ->]. done.
Qed.

Lemma counters_inv_reachable (bs : list Backend) (sys : System) :
  reachable bs sys → counters_inv sys.
Proof.
  unfold reachable. revert sys. apply rtc_ind_r.
  - apply counters_inv_init.
  - intros sys sys' _ Hstep IH. by eapply counters_inv_step.
Qed.

Lemma complete_active_connections (env : Env) (b : Backend) (p : string)
    (s : State) :
  active_connections (fst (complete env b p s))
  = dd_add (active_connections s) (name b) (-1).
Proof. unfold complete. by destruct (forward env). Qed.

Lemma complete_total_requests (env : Env) (b : Backend) (p : string) (s : State) :
  total_requests (fst (complete env b p s)) = total_requests s.
Proof. unfold complete. by destruct (forward env). Qed.

(** [proxy] run without interleaving is one schedule of the semantics. *)
Lemma proxy_is_a_schedule (env : Env) (path : string) (s : State)
    (ts : list Thread) :
  rtc step (mkSystem s ts) (mkSystem (fst (proxy env path s)) ts).
Proof.
  unfold proxy. destruct (select_backend path s) as [[b|] s1] eqn:Hsel.
  - eapply rtc_l; [by eapply step_select|].
    eapply rtc_l; [apply step_track|].
    unfold complete. destruct (forward env) as [r|] eqn:Hfw; cbn [fst].
    + eapply rtc_l; [by eapply step_forward_ok|].
      eapply rtc_l; [apply step_finally|].
      rewrite app_nil_r. apply rtc_refl.
    + eapply rtc_l; [apply step_forward_raise|].
      eapply rtc_l; [apply (step_handler env)|].
      eapply rtc_l; [apply step_finally|].
      rewrite app_nil_r. apply rtc_refl.
  - eapply rtc_l; [by eapply step_reject|]. apply rtc_refl.
Qed.

Lemma proxy_all_reachable (bs : list Backend) (reqs : list (Env * string))
    (sys : System) :
  reachable bs sys →
  reachable bs (mkSystem (proxy_all reqs (sys_state sys)) (sys_threads sys)).
Proof.
  unfold reachable. destruct sys as [s ts]. cbn [sys_state sys_threads].
  revert s. induction reqs as [|[env path] reqs IH]; intros s Hreach; [done|].
  cbn [proxy_all]. apply IH. etrans; [exact Hreach|]. apply proxy_is_a_schedule.
Qed.

Lemma system_1_reachable : reachable BACKENDS_0 system_1.
Proof.
  unfold reachable, system_1.
  eapply rtc_l; [by apply (step_select "video/a.mp4" state_0 state_0 ServerA [])|].
  eapply rtc_l; [apply (step_track state_0 ServerA "video/a.mp4" [] [])|].
  apply rtc_refl.
Defined.

Lemma system_2_reachable : reachable BACKENDS_0 system_2.
Proof.
  unfold reachable, system_2.
  etrans; [apply system_1_reachable|].
  eapply rtc_l;
    [apply (step_forward_raise (track "ServerA" state_0) ServerA "video/a.mp4" [] [])|].
  eapply rtc_l;
    [apply (step_handler env_timeout (track "ServerA" state_0) ServerA
                         "video/a.mp4" [] [])|].
  apply rtc_refl.
Defined.

(** ** Active connections *)

(** C1. In every reachable system, for every backend name the
    active-connection counter is the number of request threads routed to
    that backend that have passed the increment and not yet the decrement,
    hence it is never negative, and the counters sum to the number of
    such threads.  The increment of a dispatch adds exactly one to the
    chosen backend's counter; the rest of [proxy] subtracts exactly one,
    whether the forward returned or raised; so a request served from
    start to end, or rejected with 503, leaves every counter where it
    was. *)
Theorem active_connections_balance (bs : list Backend) (sys : System) :
  reachable bs sys →
  (∀ n, 0 ≤ dd_get (active_connections (sys_state sys)) n
        ∧ dd_get (active_connections (sys_state sys)) n
          = count_on holds_connection n (sys_threads sys))
  ∧ sum_values (active_connections (sys_state sys))
    = count_all holds_connection (sys_threads sys)
  ∧ (∀ s b n,
       dd_get (active_connections (track (name b) s)) n
       = dd_get (active_connections s) n
         + (if String.eqb (name b) n then 1 else 0))
  ∧ (∀ env b p s n,
       dd_get (active_connections (fst (complete env b p s))) n
       = dd_get (active_connections s) n
         - (if String.eqb (name b) n then 1 else 0))
  ∧ (∀ env path s n,
       dd_get (active_connections (fst (proxy env path s))) n
       = dd_get (active_connections s) n).
Proof.
  intros Hreach.
  destruct (counters_inv_reachable bs sys Hreach) as (Hact & Hsum & _).
  split; [|split; [done|]].
  { intros n. rewrite Hact. split; [apply count_on_nonneg|done]. }
  assert (∀ s b n,
            dd_get (active_connections (track (name b) s)) n
            = dd_get (active_connections s) n
              + (if String.eqb (name b) n then 1 else 0)) as Htrack.
  { intros s b n. unfold track. simpl. apply dd_get_add. }
  assert (∀ env b p s n,
            dd_get (active_connections (fst (complete env b p s))) n
            = dd_get (active_connections s) n
              - (if String.eqb (name b) n then 1 else 0)) as Hcomplete.
  { intros env b p s n. rewrite complete_active_connections, dd_get_add.
    case_match; lia. }
  split; [done|]. split; [done|].
  intros env path s n. unfold proxy.
  destruct (select_backend_state path s) as [i Hi].
  destruct (select_backend path s) as [[b|] s1]; simpl in Hi; subst s1.
  - rewrite Hcomplete, Htrack. simpl. lia.
  - done.
Qed.

Lemma active_connections_balance_witness :
  reachable BACKENDS_0 system_1
  ∧ dd_get (active_connections (sys_state system_1)) "ServerA"
    = count_on holds_connection "ServerA" (sys_threads system_1)
  ∧ sum_values (active_connections (sys_state system_1))
    = count_all holds_connection (sys_threads system_1).
Proof.
  pose proof (active_connections_balance BACKENDS_0 system_1 system_1_reachable)
    as (Hact & Hsum & _).
  split; [exact system_1_reachable|].
  split; [exact (proj2 (Hact "ServerA")) | exact Hsum].
Defined.

(** ** Failures and totals *)

(** C10. In every reachable system the failed-request counter of every
    backend is between zero and its total-request counter; more
    precisely the failures plus the requests counted in the total whose
    outcome is still open do not exceed the total.  The total is
    incremented by the dispatch, the failed counter only by the handler
    of a request whose dispatch was counted. *)
Theorem failed_at_most_total (bs : list Backend) (sys : System) :
  reachable bs sys →
  (∀ n, 0 ≤ dd_get (failed_requests (sys_state sys)) n
        ≤ dd_get (total_requests (sys_state sys)) n)
  ∧ (∀ n, dd_get (failed_requests (sys_state sys)) n
          + count_on outcome_open n (sys_threads sys)
          ≤ dd_get (total_requests (sys_state sys)) n)
  ∧ (∀ s b n,
       dd_get (total_requests (track (name b) s)) n
       = dd_get (total_requests s) n + (if String.eqb (name b) n then 1 else 0)
       ∧ failed_requests (track (name b) s) = failed_requests s)
  ∧ (∀ env b p s n,
       dd_get (failed_requests (record_failure env b p s)) n
       = dd_get (failed_requests s) n + (if String.eqb (name b) n then 1 else 0)
       ∧ failed_requests (record_success env b p s) = failed_requests s
       ∧ failed_requests (release (name b) s) = failed_requests s).
Proof.
  intros Hreach.
  destruct (counters_inv_reachable bs sys Hreach) as (_ & _ & Hfail).
  split; [|split; [|split]].
  - intros n. destruct (Hfail n) as [H0 Hle].
    pose proof (count_on_nonneg outcome_open n (sys_threads sys)). lia.
  - intros n. by destruct (Hfail n).
  - intros s b n. unfold track. simpl. split; [apply dd_get_add|done].
  - intros env b p s n. unfold record_failure, record_success, release. simpl.
    split; [apply dd_get_add|done].
Qed.

Lemma failed_at_most_total_witness :
  reachable BACKENDS_0 system_2
  ∧ 0 ≤ dd_get (failed_requests (sys_state system_2)) "ServerA"
      ≤ dd_get (total_requests (sys_state system_2)) "ServerA".
Proof.
  pose proof (failed_at_most_total BACKENDS_0 system_2 system_2_reachable)
    as (Hle & _).
  split; [exact system_2_reachable | exact (Hle "ServerA")].
Defined.

Example system_2_counters :
  dd_get (failed_requests (sys_state system_2)) "ServerA" = 1
  ∧ dd_get (total_requests (sys_state system_2)) "ServerA" = 1
  ∧ dd_get (active_connections (sys_state system_2)) "ServerA" = 1.
Proof. by vm_compute. Qed.

(** ** The latency window *)

Lemma dl_get_append (d : gmap string (list Q)) (k k' : string) (x : Q) :
  dl_get (dl_append d k x) k'
  = if String.eqb k k' then dl_get d k ++ [x] else dl_get d k'.
Proof.
  unfold dl_get, dl_append. destruct (String.eqb_spec k k') as [->|Hne].
  - by rewrite lookup_insert_eq.
  - by rewrite lookup_insert_ne.
Qed.

Lemma last_n_short {A : Type} (n : nat) (l : list A) :
  (length l ≤ n)%nat → last_n n l = l.
Proof. intros Hl. unfold last_n. by replace (length l - n)%nat with 0%nat by lia. Qed.

Lemma last_n_length {A : Type} (n : nat) (l : list A) :
  length (last_n n l) = (length l `min` n)%nat.
Proof. unfold last_n. rewrite length_skipn. lia. Qed.

Lemma spec_window_push_length (w : list Q) (d : Q) :
  (length w ≤ 10)%nat → (length (spec_window_push w d) ≤ 10)%nat.
Proof.
  intros Hw. unfold spec_window_push.
  destruct (Nat.ltb_spec (length w) 10); rewrite length_app; simpl; [lia|].
  destruct w; simpl in *; lia.
Qed.

(** Folding the specification's bounded buffer over a run of durations
    gives the last ten entries of the unbounded list. *)
Lemma spec_window_fold (ds w : list Q) :
  (length w ≤ 10)%nat →
  fold_left spec_window_push ds w = last_n 10 (w ++ ds).
Proof.
  revert w. induction ds as [|d ds IH]; intros w Hw; simpl.
  - rewrite app_nil_r. by rewrite last_n_short.
  - rewrite IH by by apply spec_window_push_length.
    unfold spec_window_push. destruct (Nat.ltb_spec (length w) 10) as [Hlt|Hge].
    + by rewrite <- app_assoc.
    + destruct w as [|x w]; [simpl in *; lia|]. simpl in Hw, Hge.
      rewrite <- app_assoc. cbn [tail]. unfold last_n.
      rewrite !length_app. cbn [length app].
      replace (S (length w) + S (length ds) - 10)%nat
        with (S (length w + (1 + length ds) - 10))%nat by lia.
      done.
Qed.

Lemma step_response_times_grow (sys sys' : System) (n : string) :
  step sys sys' →
  ∃ suffix : list Q,
    dl_get (response_times (sys_state sys')) n
    = dl_get (response_times (sys_state sys)) n ++ suffix.
Proof.
  destruct 1 as [path s s' ts Hsel | path s s' b ts Hsel | s b p ts1 ts2
                 | env r s b p ts1 ts2 Hfw | s b p ts1 ts2
                 | env s b p ts1 ts2 | r s b p ts1 ts2 | i r s ts
                 | new_algo s ts];
    cbn [sys_state]; try (exists []; by rewrite app_nil_r).
  - destruct (select_backend_state path s) as [i Hi]. rewrite Hsel in Hi.
    simpl in Hi. subst s'. exists []. by rewrite app_nil_r.
  - destruct (select_backend_state path s) as [i Hi]. rewrite Hsel in Hi.
    simpl in Hi. subst s'. exists []. by rewrite app_nil_r.
  - unfold record_success. simpl. rewrite dl_get_append.
    destruct (String.eqb_spec (name b) n) as [->|Hne].
    + by exists [elapsed env].
    + exists []. by rewrite app_nil_r.
  - destruct (change_algorithm_state new_algo s) as [a ->].
    exists []. by rewrite app_nil_r.
Qed.

(** C2, as stated, fails: after eleven requests served by [ServerA] its
    stored sequence of latencies has eleven entries. *)
Lemma response_times_exceed_capacity :
  reachable BACKENDS_0 (mkSystem state_11 [])
  ∧ length (dl_get (response_times state_11) "ServerA") = 11%nat
  ∧ ¬ (∀ sys n, reachable BACKENDS_0 sys →
         (length (dl_get (response_times (sys_state sys)) n) ≤ 10)%nat).
Proof.
  assert (reachable BACKENDS_0 (mkSystem state_11 [])) as Hreach.
  { apply (proxy_all_reachable BACKENDS_0 (repeat (env_ok, "video/a.mp4") 11)
             (init BACKENDS_0)).
    apply rtc_refl. }
  assert (length (dl_get (response_times state_11) "ServerA") = 11%nat) as Hlen
    by (by vm_compute).
  split; [exact Hreach|]. split; [exact Hlen|].
  intros Hclaim.
  assert (∀ st, length (dl_get (response_times st) "ServerA") = 11%nat →
            (length (dl_get (response_times (sys_state (mkSystem st []))) "ServerA")
             ≤ 10)%nat → False) as Hgen.
  { intros st H11 H10. cbn [sys_state] in H10. lia. }
  exact (Hgen state_11 Hlen (Hclaim (mkSystem state_11 []) "ServerA" Hreach)).
Qed.

(** C2, amended. The stored sequence of latencies of a backend is
    append-only and unbounded: recording a successful forward appends its
    duration at the end, and no step of the program removes an entry.
    The trailing average reported by [stats] is [0] for an empty sequence
    and otherwise the mean, in milliseconds, over the last ten entries
    (all of them when there are fewer); these last ten entries are
    exactly what a buffer of capacity 10 with oldest-first eviction would
    hold. *)
Theorem latency_window_is_last_ten (s : State) (b : Backend) :
  (∀ env p,
     dl_get (response_times (record_success env b p s)) (name b)
     = dl_get (response_times s) (name b) ++ [elapsed env])
  ∧ (∀ sys sys' n, step sys sys' →
       ∃ suffix, dl_get (response_times (sys_state sys')) n
                 = dl_get (response_times (sys_state sys)) n ++ suffix)
  ∧ st_avg_response_time_ms (backend_stats s b)
    = match dl_get (response_times s) (name b) with
      | [] => inject_Z 0
      | _ :: _ => mean_ms (last_n 10 (dl_get (response_times s) (name b)))
      end
  ∧ st_backends (stats s) = map (backend_stats s) (BACKENDS s)
  ∧ last_n 10 (dl_get (response_times s) (name b))
    = spec_window (dl_get (response_times s) (name b))
  ∧ length (last_n 10 (dl_get (response_times s) (name b)))
    = (length (dl_get (response_times s) (name b)) `min` 10)%nat.
Proof.
  split; [|split; [|split; [|split; [|split]]]].
  - intros env p. unfold record_success. simpl.
    by rewrite dl_get_append, String.eqb_refl.
  - intros sys sys' n. apply step_response_times_grow.
  - done.
  - done.
  - unfold spec_window. by rewrite spec_window_fold by (simpl; lia).
  - apply last_n_length.
Qed.

Lemma latency_window_is_last_ten_witness :
  step system_1
       (mkSystem (record_success env_ok ServerA "video/a.mp4"
                                 (track "ServerA" state_0))
                 [mkThread ServerA "video/a.mp4"
                           (Leaving (mkResponse 200 (Raw "ok")))])
  ∧ ∃ suffix,
      dl_get (response_times (record_success env_ok ServerA "video/a.mp4"
                                             (track "ServerA" state_0)))
             "ServerA"
      = dl_get (response_times (track "ServerA" state_0)) "ServerA" ++ suffix.
Proof.
  assert (step system_1
            (mkSystem (record_success env_ok ServerA "video/a.mp4"
                                      (track "ServerA" state_0))
                      [mkThread ServerA "video/a.mp4"
                                (Leaving (mkResponse 200 (Raw "ok")))]))
    as Hstep.
  { exact (step_forward_ok env_ok (mkResponse 200 (Raw "ok"))
             (track "ServerA" state_0) ServerA "video/a.mp4" [] [] eq_refl). }
  split; [exact Hstep|].
  exact (proj1 (proj2 (latency_window_is_last_ten state_0 ServerA))
               _ _ "ServerA" Hstep).
Defined.

Example state_11_average :
  Qeq (avg_response_time_ms state_11 "ServerA") (inject_Z 100)
  ∧ last_n 10 (dl_get (response_times state_11) "ServerA")
    = repeat (1 # 10)%Q 10.
Proof. by vm_compute. Qed.

(** ** A forward that fails *)

Lemma history_append_last (r : RequestRecord) (h : list RequestRecord) :
  last (history_append r h) = Some r.
Proof.
  unfold history_append. case_match; [|apply last_snoc].
  destruct h as [|x h]; simpl; [done|]. apply last_snoc.
Qed.

Lemma history_append_length (r : RequestRecord) (h : list RequestRecord) :
  (length h ≤ 50)%nat → (length (history_append r h) ≤ 50)%nat.
Proof.
  intros Hh. unfold history_append.
  destruct (Nat.ltb_spec 50 (length (h ++ [r]))) as [Hlt|Hge]; [|done].
  rewrite length_app in Hlt. simpl in Hlt.
  destruct h; simpl in *; [lia|]. rewrite length_app. simpl. lia.
Qed.

(** C3, as stated, fails: a request routed to [ServerA] whose forward
    times out leaves the latency sequence of [ServerA] empty; its
    duration is not appended. *)
Lemma failed_forward_records_no_latency :
  select_backend "video/a.mp4" state_0 = (Some ServerA, state_0)
  ∧ forward env_timeout = TransportError
  ∧ dl_get (response_times (fst (proxy env_timeout "video/a.mp4" state_0)))
           "ServerA" = []
  ∧ dl_get (response_times (fst (proxy env_timeout "video/a.mp4" state_0)))
           "ServerA"
    ≠ dl_get (response_times state_0) "ServerA" ++ [elapsed env_timeout].
Proof. by vm_compute. Qed.

(** C3, amended. When the forward to the selected backend raises
    (connection failure or timeout), the rest of [proxy] decrements that
    backend's active count by one, increments its failed count by one,
    appends to the history a record with status [failed] and
    [optimized = false], and answers 502; the latency sequences are left
    as they were, and so are the total counts and the health flags. *)
Theorem failed_forward_bookkeeping (env : Env) (b : Backend) (p : string)
    (s : State) :
  forward env = TransportError →
  snd (complete env b p s) = bad_gateway_response (name b)
  ∧ status_code (snd (complete env b p s)) = 502
  ∧ (∀ n, dd_get (active_connections (fst (complete env b p s))) n
          = dd_get (active_connections s) n
            - (if String.eqb (name b) n then 1 else 0))
  ∧ (∀ n, dd_get (failed_requests (fst (complete env b p s))) n
          = dd_get (failed_requests s) n
            + (if String.eqb (name b) n then 1 else 0))
  ∧ response_times (fst (complete env b p s)) = response_times s
  ∧ total_requests (fst (complete env b p s)) = total_requests s
  ∧ BACKENDS (fst (complete env b p s)) = BACKENDS s
  ∧ request_history (fst (complete env b p s))
    = history_append
        (mkRecord (now env) ("/" +:+ p) (request_type_of p) (name b)
                  (to_ms (elapsed env)) "failed" false)
        (request_history s)
  ∧ (∃ r, last (request_history (fst (complete env b p s))) = Some r
          ∧ rec_backend r = name b
          ∧ rec_status r = "failed"
          ∧ rec_optimized r = false)
  ∧ (∀ path s0 s1, select_backend path s0 = (Some b, s1) →
       snd (proxy env path s0) = bad_gateway_response (name b)).
Proof.
  intros Hfw. unfold complete. rewrite Hfw.
  unfold release, record_failure. cbn [fst snd].
  repeat split; try done.
  - intros n. simpl. rewrite dd_get_add. case_match; lia.
  - intros n. simpl. apply dd_get_add.
  - eexists. split; [apply history_append_last|done].
  - intros path s0 s1 Hsel. unfold proxy, complete. by rewrite Hsel, Hfw.
Qed.

Lemma failed_forward_bookkeeping_witness :
  forward env_timeout = TransportError
  ∧ status_code (snd (complete env_timeout ServerA "video/a.mp4"
                               (track "ServerA" state_0))) = 502
  ∧ response_times (fst (complete env_timeout ServerA "video/a.mp4"
                                  (track "ServerA" state_0)))
    = response_times (track "ServerA" state_0).
Proof.
  pose proof (failed_forward_bookkeeping env_timeout ServerA "video/a.mp4"
                (track "ServerA" state_0) eq_refl)
    as (_ & Hcode & _ & _ & Hrt & _).
  split; [reflexivity|]. split; [exact Hcode | exact Hrt].
Defined.

(** ** The helpers on concrete inputs *)

Example startswith_video : startswith "video/movie.mp4" "video/" = true.
Proof. reflexivity. Qed.

Example startswith_slash_video : startswith "/video/movie.mp4" "video/" = false.
Proof. reflexivity. Qed.

Example endswith_zip : endswith "archive.zip" ".zip" = true.
Proof. reflexivity. Qed.

Example endswith_short : endswith "zip" ".zip" = false.
Proof. reflexivity. Qed.

Example contains_video : contains "video/" "static/video/x" = true.
Proof. reflexivity. Qed.

Example last_n_slice : last_n 2 [1; 2; 3] = [2; 3] ∧ last_n 5 [1; 2; 3] = [1; 2; 3].
Proof. by split. Qed.

Example py_round2_ties :
  py_round2 (1005 # 1000)%Q = (100 # 100)%Q
  ∧ py_round2 (1015 # 1000)%Q = (102 # 100)%Q
  ∧ py_round2 (1234567 # 1000000)%Q = (123 # 100)%Q.
Proof. by vm_compute. Qed.

Example min_first_of_ties :
  py_min (fun p : string * Z => snd p) [("a", 2); ("b", 1); ("c", 1)]
  = Some ("b", 1).
Proof. reflexivity. Qed.

Example file_size_large_uses_least_connections :
  file_size_based_routing "archive.zip" (track "ServerA" state_0)
  = (Some ServerB, track "ServerA" state_0).
Proof. reflexivity. Qed.

Example content_based_falls_back_when_video_is_down :
  fst (content_based_routing "video/movie.mp4"
         (health_check_at 0 ProbeRaised state_0)) = Some ServerB.
Proof. reflexivity. Qed.

Example proxy_success_is_optimized :
  map rec_optimized (request_history (fst (proxy env_ok "video/movie.mp4" state_0)))
  = [true].
Proof. reflexivity. Qed.

(** * Further properties of the module *)

(** ** Strings *)

Lemma append_cons (a : Ascii.ascii) (s1 s2 : string) :
  String a s1 +:+ s2 = String a (s1 +:+ s2).
Proof. reflexivity. Qed.

Lemma append_assoc (s1 s2 s3 : string) :
  (s1 +:+ s2) +:+ s3 = s1 +:+ (s2 +:+ s3).
Proof.
  induction s1 as [|a s1 IH]; [done|]. rewrite !append_cons. by rewrite IH.
Qed.

Lemma append_length (s1 s2 : string) :
  String.length (s1 +:+ s2) = (String.length s1 + String.length s2)%nat.
Proof.
  induction s1 as [|a s1 IH]; [done|]. rewrite append_cons. simpl. by rewrite IH.
Qed.

Lemma prefix_iff (p s : string) :
  String.prefix p s = true ↔ ∃ rest, s = p +:+ rest.
Proof.
  revert s. induction p as [|a p IH]; intros s.
  - split; [intros _; by exists s|]. intros _. by destruct s.
  - destruct s as [|b s]; simpl.
    + split; [done|]. intros [rest Hrest]. by rewrite append_cons in Hrest.
    + destruct (Ascii.ascii_dec a b) as [->|Hne].
      * rewrite IH. split; intros [rest Hrest]; exists rest.
        -- by rewrite append_cons, Hrest.
        -- rewrite append_cons in Hrest. by simplify_eq.
      * split; [done|]. intros [rest Hrest]. rewrite append_cons in Hrest.
        by simplify_eq.
Qed.

Lemma startswith_iff (s p : string) :
  startswith s p = true ↔ ∃ rest, s = p +:+ rest.
Proof. apply prefix_iff. Qed.

Lemma contains_iff (sub s : string) :
  contains sub s = true ↔ ∃ before after, s = before +:+ (sub +:+ after).
Proof.
  induction s as [|c s IH]; cbn [contains].
  - rewrite orb_false_r, prefix_iff. split.
    + intros [rest Hrest]. by exists "", rest.
    + intros (before & after & Hs). destruct before; [by exists after|].
      by rewrite append_cons in Hs.
  - rewrite orb_true_iff, prefix_iff, IH. split.
    + intros [[rest Hrest]|(before & after & Hs)].
      * by exists "", rest.
      * exists (String c before), after. by rewrite append_cons, Hs.
    + intros (before & after & Hs). destruct before as [|c' before].
      * left. by exists after.
      * right. rewrite append_cons in Hs. simplify_eq. by exists before, after.
Qed.

Lemma substring_append_skip (pre s : string) (m : nat) :
  substring (String.length pre) m (pre +:+ s) = substring 0 m s.
Proof. induction pre as [|a pre IH]; [done|]. by rewrite append_cons. Qed.

Lemma substring_whole (s : string) : substring 0 (String.length s) s = s.
Proof. induction s as [|a s IH]; [done|]. simpl. by rewrite IH. Qed.

Lemma substring_split (n : nat) (s : string) :
  (n ≤ String.length s)%nat →
  s = substring 0 n s +:+ substring n (String.length s - n) s.
Proof.
  revert s. induction n as [|n IH]; intros s Hn.
  - rewrite Nat.sub_0_r, substring_whole. by destruct s.
  - destruct s as [|a s]; simpl in *; [lia|].
    rewrite append_cons. f_equal. apply IH. lia.
Qed.

Lemma endswith_iff (s suffix : string) :
  endswith s suffix = true ↔ ∃ before, s = before +:+ suffix.
Proof.
  unfold endswith. rewrite andb_true_iff, Nat.leb_le, String.eqb_eq. split.
  - intros [Hlen Hsub].
    exists (substring 0 (String.length s - String.length suffix) s).
    pose proof (substring_split (String.length s - String.length suffix) s
                  ltac:(lia)) as Hsplit.
    replace (String.length s - (String.length s - String.length suffix))%nat
      with (String.length suffix) in Hsplit by lia.
    by rewrite Hsub in Hsplit.
  - intros [before ->]. rewrite append_length. split; [lia|].
    replace (String.length before + String.length suffix - String.length suffix)%nat
      with (String.length before) by lia.
    by rewrite substring_append_skip, substring_whole.
Qed.

(** ** File-size-based routing *)

Lemma is_large_file_iff (path : string) :
  is_large_file path = true
  ↔ (∃ before ext, ext ∈ large_file_extensions ∧ path = before +:+ ext)
    ∨ (∃ before after, path = before +:+ ("video/" +:+ after)).
Proof.
  unfold is_large_file. rewrite orb_true_iff, existsb_exists, contains_iff.
  split; (intros [Hext|Hvideo]; [left|by right]).
  - destruct Hext as (ext & Hin & [before ->]%endswith_iff).
    exists before, ext. split; [by apply list_elem_of_In|done].
  - destruct Hext as (before & ext & Hin & ->). exists ext.
    split; [by apply list_elem_of_In|]. apply endswith_iff. by exists before.
Qed.

(** X1. [file_size_based_routing] on a path that ends with one of the
    five large-file extensions or contains [video/] anywhere gives what
    [least_connections] gives and leaves the round-robin cursor alone; on
    every other path it is [round_robin]. *)
Theorem file_size_routing_by_size (path : string) (s : State) :
  ((∃ before ext, ext ∈ [".mp4"; ".mkv"; ".avi"; ".zip"; ".iso"]
                  ∧ path = before +:+ ext)
   ∨ (∃ before after, path = before +:+ ("video/" +:+ after)) →
   file_size_based_routing path s = (least_connections s, s))
  ∧ (¬ ((∃ before ext, ext ∈ [".mp4"; ".mkv"; ".avi"; ".zip"; ".iso"]
                       ∧ path = before +:+ ext)
        ∨ (∃ before after, path = before +:+ ("video/" +:+ after))) →
     file_size_based_routing path s = round_robin s).
Proof.
  fold large_file_extensions. rewrite <- is_large_file_iff.
  assert (file_size_based_routing path s
          = if is_large_file path then (least_connections s, s)
            else round_robin s) as ->.
  { unfold file_size_based_routing, least_connections, is_large_file.
    destruct (get_healthy_backends s) eqn:Hhs; [|done].
    rewrite (round_robin_empty s Hhs). by case_match. }
  split.
  - by intros ->.
  - intros Hsmall. by destruct (is_large_file path).
Qed.

Lemma file_size_routing_by_size_witness :
  ((∃ before ext, ext ∈ [".mp4"; ".mkv"; ".avi"; ".zip"; ".iso"]
                  ∧ "archive.zip" = before +:+ ext)
   ∨ (∃ before after, "archive.zip" = before +:+ ("video/" +:+ after)))
  ∧ file_size_based_routing "archive.zip" state_0
    = (least_connections state_0, state_0).
Proof.
  assert ((∃ before ext, ext ∈ [".mp4"; ".mkv"; ".avi"; ".zip"; ".iso"]
                         ∧ "archive.zip" = before +:+ ext)
          ∨ (∃ before after, "archive.zip" = before +:+ ("video/" +:+ after)))
    as Hlarge.
  { left. exists "archive", ".zip". split; [repeat constructor|reflexivity]. }
  split; [exact Hlarge|].
  exact (proj1 (file_size_routing_by_size "archive.zip" state_0) Hlarge).
Defined.

(** ** Only healthy backends are selected *)

Lemma py_min_elem {A : Type} (key : A → Z) (xs : list A) (b : A) :
  py_min key xs = Some b → b ∈ xs.
Proof.
  intros Hmin. destruct xs as [|x xs]; [done|].
  destruct (py_min_spec key (x :: xs)) as (b' & i & Hb' & Hi & _); [done|].
  rewrite Hmin in Hb'. simplify_eq. apply list_elem_of_lookup. eauto.
Qed.

Lemma round_robin_elem (s : State) (b : Backend) :
  fst (round_robin s) = Some b → b ∈ get_healthy_backends s.
Proof.
  unfold round_robin. destruct (get_healthy_backends s) eqn:Hhs; [done|].
  cbn [fst]. intros Hb. apply list_elem_of_lookup. eauto.
Qed.

Lemma filter_elem {A : Type} (P : A → bool) (l : list A) (x : A) :
  x ∈ List.filter P l ↔ x ∈ l ∧ P x = true.
Proof. by rewrite !list_elem_of_In, filter_In. Qed.

Lemma affinity_arm_elem (s : State) (ty : string) (b : Backend) :
  fst (affinity_arm s (get_healthy_backends s) ty) = Some b →
  b ∈ get_healthy_backends s.
Proof.
  unfold affinity_arm. destruct (List.filter _ _) eqn:Hf.
  - apply round_robin_elem.
  - cbn [fst]. rewrite <- Hf. intros Hb%py_min_elem. by apply filter_elem in Hb as [? _].
Qed.

Lemma select_backend_elem (path : string) (s : State) (b : Backend) :
  fst (select_backend path s) = Some b → b ∈ get_healthy_backends s.
Proof.
  unfold select_backend, least_connections, content_based_routing,
    file_size_based_routing.
  destruct (get_healthy_backends s) as [|b0 bs] eqn:Hhs.
  { rewrite (round_robin_empty s Hhs). by repeat case_match. }
  rewrite <- Hhs.
  repeat case_match; cbn [fst];
    eauto using round_robin_elem, affinity_arm_elem, py_min_elem.
Qed.

(** X2. Whatever the policy and the path, a backend returned by
    [select_backend] is an entry of [BACKENDS] whose health flag is set:
    no request is ever routed to a backend marked unhealthy. *)
Theorem select_backend_only_healthy (path : string) (s s' : State)
    (b : Backend) :
  select_backend path s = (Some b, s') →
  b ∈ BACKENDS s ∧ healthy b = true ∧ b ∈ get_healthy_backends s.
Proof.
  intros Hsel.
  assert (b ∈ get_healthy_backends s) as Hin
    by (apply (select_backend_elem path); by rewrite Hsel).
  pose proof Hin as [Hb Hh]%filter_elem. done.
Qed.

Lemma select_backend_only_healthy_witness :
  select_backend "api/users"
    (set_ALGORITHM "round-robin" (health_check_at 0 ProbeRaised state_0))
  = (Some ServerB,
     set_current_index 1
       (set_ALGORITHM "round-robin" (health_check_at 0 ProbeRaised state_0)))
  ∧ healthy ServerB = true.
Proof.
  assert (select_backend "api/users"
            (set_ALGORITHM "round-robin" (health_check_at 0 ProbeRaised state_0))
          = (Some ServerB,
             set_current_index 1
               (set_ALGORITHM "round-robin"
                  (health_check_at 0 ProbeRaised state_0)))) as Hsel
    by reflexivity.
  split; [exact Hsel|].
  exact (proj1 (proj2 (select_backend_only_healthy _ _ _ _ Hsel))).
Defined.

(** ** Invariants of the reachable systems *)

Lemma reachable_invariant (P : System → Prop) (bs : list Backend) :
  P (init bs) →
  (∀ sys sys', step sys sys' → P sys → P sys') →
  ∀ sys, reachable bs sys → P sys.
Proof.
  intros Hinit Hstep. unfold reachable. apply rtc_ind_r; [done|].
  intros sys sys' _ Hs IH. by eapply Hstep.
Qed.

Lemma select_backend_snd (path : string) (s s' : State) (r : option Backend) :
  select_backend path s = (r, s') → ∃ i, s' = set_current_index i s.
Proof.
  intros Hsel. destruct (select_backend_state path s) as [i Hi].
  exists i. by rewrite Hsel in Hi.
Qed.

Lemma change_algorithm_policy (new_algo : request_json) (s : State) :
  ALGORITHM s ∈ valid → ALGORITHM (fst (change_algorithm new_algo s)) ∈ valid.
Proof.
  intros Hs. unfold change_algorithm.
  destruct new_algo as [code| |[a|]]; [done..| |done].
  case_bool_decide; done.
Qed.

(** X3. The policy of every reachable system is one of the four names of
    [valid], so [select_backend] always runs one of the four algorithms
    and its final [else] branch is dead code. *)
Theorem policy_always_valid (bs : list Backend) (sys : System) :
  reachable bs sys →
  ALGORITHM (sys_state sys)
  ∈ ["round-robin"; "least-connections"; "content-based"; "file-size"]
  ∧ ∀ path,
      (ALGORITHM (sys_state sys) = "round-robin"
       ∧ select_backend path (sys_state sys) = round_robin (sys_state sys))
      ∨ (ALGORITHM (sys_state sys) = "least-connections"
         ∧ select_backend path (sys_state sys)
           = (least_connections (sys_state sys), sys_state sys))
      ∨ (ALGORITHM (sys_state sys) = "content-based"
         ∧ select_backend path (sys_state sys)
           = content_based_routing path (sys_state sys))
      ∨ (ALGORITHM (sys_state sys) = "file-size"
         ∧ select_backend path (sys_state sys)
           = file_size_based_routing path (sys_state sys)).
Proof.
  intros Hreach.
  assert (ALGORITHM (sys_state sys) ∈ valid) as Hvalid.
  { revert sys Hreach. apply reachable_invariant.
    - unfold valid. simpl. repeat constructor.
    - intros sys sys' Hstep.
      destruct Hstep as [path s s' ts Hsel | path s s' b ts Hsel | s b p ts1 ts2
                        | env r s b p ts1 ts2 Hfw | s b p ts1 ts2
                        | env s b p ts1 ts2 | r s b p ts1 ts2 | i r s ts
                        | new_algo s ts];
        cbn [sys_state]; try done.
      + apply select_backend_snd in Hsel as [i ->]. done.
      + apply select_backend_snd in Hsel as [i ->]. done.
      + apply change_algorithm_policy. }
  split; [exact Hvalid|]. intros path. unfold select_backend.
  unfold valid in Hvalid.
  repeat (apply elem_of_cons in Hvalid as [->|Hvalid]); [| | | |by apply elem_of_nil in Hvalid];
    cbn; auto 10.
Qed.

Lemma policy_always_valid_witness :
  reachable BACKENDS_0 system_2
  ∧ ALGORITHM (sys_state system_2)
    ∈ ["round-robin"; "least-connections"; "content-based"; "file-size"].
Proof.
  split; [exact system_2_reachable|].
  exact (proj1 (policy_always_valid BACKENDS_0 system_2 system_2_reachable)).
Defined.

Lemma identity_probe (r : probe_result) (b : Backend) :
  identity (probe r b) = identity b.
Proof. by destruct r. Qed.

Lemma map_identity_alter (r : probe_result) (i : nat) (l : list Backend) :
  map identity (alter (probe r) i l) = map identity l.
Proof.
  revert i. induction l as [|b l IH]; intros [|i]; simpl; [done..| |].
  - by rewrite identity_probe.
  - f_equal. apply IH.
Qed.

Lemma registry_identity_reachable (bs : list Backend) (sys : System) :
  reachable bs sys →
  map identity (BACKENDS (sys_state sys)) = map identity bs.
Proof.
  revert sys. apply reachable_invariant; [done|].
  intros sys sys' Hstep.
  destruct Hstep as [path s s' ts Hsel | path s s' b ts Hsel | s b p ts1 ts2
                    | env r s b p ts1 ts2 Hfw | s b p ts1 ts2
                    | env s b p ts1 ts2 | r s b p ts1 ts2 | i r s ts
                    | new_algo s ts];
    cbn [sys_state]; try done.
  - apply select_backend_snd in Hsel as [i ->]. done.
  - apply select_backend_snd in Hsel as [i ->]. done.
  - unfold health_check_at. simpl. by rewrite map_identity_alter.
  - destruct (change_algorithm_state new_algo s) as [a ->]. done.
Qed.

(** X4. The registry is fixed for the life of the process: in every
    reachable system [BACKENDS] has the entries it was loaded with, in the
    same order and with the same name, url, type and color; only health
    flags differ. *)
Theorem registry_identity_fixed (bs : list Backend) (sys : System) :
  reachable bs sys →
  map identity (BACKENDS (sys_state sys)) = map identity bs
  ∧ length (BACKENDS (sys_state sys)) = length bs.
Proof.
  intros Hreach.
  pose proof (registry_identity_reachable bs sys Hreach) as Hid.
  split; [exact Hid|].
  by rewrite <- (length_map identity), Hid, length_map.
Qed.

Lemma registry_identity_fixed_witness :
  reachable BACKENDS_0 system_2
  ∧ map identity (BACKENDS (sys_state system_2)) = map identity BACKENDS_0.
Proof.
  split; [exact system_2_reachable|].
  exact (proj1 (registry_identity_fixed BACKENDS_0 system_2 system_2_reachable)).
Defined.

Ltac step_cases Hstep :=
  destruct Hstep as [path s s' ts Hsel | path s s' b ts Hsel | s b p ts1 ts2
                    | env r s b p ts1 ts2 Hfw | s b p ts1 ts2
                    | env s b p ts1 ts2 | r s b p ts1 ts2 | i r s ts
                    | new_algo s ts];
  cbn [sys_state sys_threads];
  [ apply select_backend_snd in Hsel as [i ->]
  | apply select_backend_snd in Hsel as [i ->]
  | | | | | |
  | destruct (change_algorithm_state new_algo s) as [a ->] ].

(** ** The request history *)

Lemma last_n_suffix {A : Type} (n : nat) (l : list A) :
  ∃ older, l = older ++ last_n n l.
Proof. exists (take (length l - n) l). unfold last_n. by rewrite take_drop. Qed.

(** X5. In every reachable system the request history holds at most 50
    records, and what [broadcast_metrics] publishes as recent requests is
    the tail of that history, at most 20 records long. *)
Theorem request_history_bounded (bs : list Backend) (sys : System) :
  reachable bs sys →
  (length (request_history (sys_state sys)) ≤ 50)%nat
  ∧ (length (m_recent_requests (broadcast_metrics (sys_state sys))) ≤ 20)%nat
  ∧ ∃ older,
      request_history (sys_state sys)
      = older ++ m_recent_requests (broadcast_metrics (sys_state sys)).
Proof.
  intros Hreach. split; [|split].
  - revert sys Hreach. apply reachable_invariant; [simpl; lia|].
    intros sys sys' Hstep. step_cases Hstep; try done.
    + intros Hlen. unfold record_success. simpl. by apply history_append_length.
    + intros Hlen. unfold record_failure. simpl. by apply history_append_length.
  - unfold broadcast_metrics. simpl. rewrite last_n_length. lia.
  - apply last_n_suffix.
Qed.

Lemma request_history_bounded_witness :
  reachable BACKENDS_0 system_2
  ∧ (length (request_history (sys_state system_2)) ≤ 50)%nat.
Proof.
  split; [exact system_2_reachable|].
  exact (proj1 (request_history_bounded BACKENDS_0 system_2 system_2_reachable)).
Defined.

Lemma history_append_cases (r : RequestRecord) (h : list RequestRecord) :
  (length h ≤ 50)%nat →
  history_append r h = last_n 50 (h ++ [r]).
Proof.
  intros Hh. unfold history_append, last_n. rewrite length_app. simpl.
  destruct (Nat.ltb_spec 50 (length h + 1)) as [Hfull|Hroom].
  - replace (length h + 1 - 50)%nat with 1%nat by lia.
    by destruct h.
  - by replace (length h + 1 - 50)%nat with 0%nat by lia.
Qed.

Lemma last_n_app_ge {A : Type} (n : nat) (older l : list A) :
  (n ≤ length l)%nat → last_n n (older ++ l) = last_n n l.
Proof.
  intros Hn. unfold last_n. rewrite length_app.
  replace (length older + length l - n)%nat
    with (length older + (length l - n))%nat by lia.
  by rewrite drop_app_add.
Qed.

Lemma last_n_app_last_n {A : Type} (n : nat) (l1 l2 : list A) :
  last_n n (last_n n l1 ++ l2) = last_n n (l1 ++ l2).
Proof.
  destruct (Nat.le_gt_cases (length l1) n) as [Hle|Hgt].
  - by rewrite (last_n_short n l1).
  - destruct (last_n_suffix n l1) as [older Hl1].
    assert (l1 ++ l2 = older ++ (last_n n l1 ++ l2)) as ->
      by (by rewrite app_assoc, <- Hl1).
    rewrite (last_n_app_ge n older); [done|].
    rewrite length_app, last_n_length. lia.
Qed.

(** X6. Appending records one by one with the eviction of
    [request_history.pop(0)] keeps exactly the last 50 of all records, in
    the order they were appended. *)
Theorem request_history_is_last_fifty (rs h : list RequestRecord) :
  (length h ≤ 50)%nat →
  fold_left (fun h r => history_append r h) rs h = last_n 50 (h ++ rs)
  ∧ (length (fold_left (fun h r => history_append r h) rs h) ≤ 50)%nat.
Proof.
  intros Hh.
  assert (fold_left (fun h r => history_append r h) rs h = last_n 50 (h ++ rs))
    as Hfold.
  { revert h Hh. induction rs as [|r rs IH]; intros h Hh; simpl.
    - rewrite app_nil_r. by rewrite last_n_short.
    - rewrite IH by by apply history_append_length.
      rewrite history_append_cases by done.
      rewrite last_n_app_last_n. by rewrite <- app_assoc. }
  split; [exact Hfold|]. rewrite Hfold, last_n_length. lia.
Qed.

Lemma request_history_is_last_fifty_witness :
  (length (@nil RequestRecord) ≤ 50)%nat
  ∧ fold_left (fun h r => history_append r h)
              (request_history (sys_state system_2)) []
    = last_n 50 ([] ++ request_history (sys_state system_2)).
Proof.
  assert (length (@nil RequestRecord) ≤ 50)%nat as Hnil by (simpl; lia).
  split; [exact Hnil|].
  exact (proj1 (request_history_is_last_fifty
                  (request_history (sys_state system_2)) [] Hnil)).
Defined.

(** ** Aggregates of [stats] *)

Lemma count_all_nonneg (P : pc → bool) (ts : list Thread) : 0 ≤ count_all P ts.
Proof. unfold count_all. lia. Qed.

Lemma aggregate_inv_reachable (bs : list Backend) (sys : System) :
  reachable bs sys →
  0 ≤ sum_values (failed_requests (sys_state sys))
  ∧ sum_values (failed_requests (sys_state sys))
    + count_all outcome_open (sys_threads sys)
    ≤ sum_values (total_requests (sys_state sys)).
Proof.
  revert sys. apply reachable_invariant.
  - by vm_compute.
  - intros sys sys' Hstep. step_cases Hstep; try done; intros [H0 Hle].
    + simpl. count_threads. lia.
    + unfold track. simpl. rewrite sum_values_add. count_threads. lia.
    + unfold record_success. simpl. count_threads. lia.
    + count_threads. lia.
    + unfold record_failure. simpl. rewrite sum_values_add. count_threads. lia.
    + unfold release. simpl. count_threads. lia.
Qed.

(** X7. In every reachable system the two aggregates that [stats] reports
    satisfy [0 <= total_failures <= total_requests]. *)
Theorem stats_failures_at_most_requests (bs : list Backend) (sys : System) :
  reachable bs sys →
  0 ≤ st_sum_total_failures (stats (sys_state sys))
    ≤ st_sum_total_requests (stats (sys_state sys)).
Proof.
  intros Hreach. destruct (aggregate_inv_reachable bs sys Hreach) as [H0 Hle].
  pose proof (count_all_nonneg outcome_open (sys_threads sys)).
  unfold stats. simpl. lia.
Qed.

Lemma stats_failures_at_most_requests_witness :
  reachable BACKENDS_0 system_2
  ∧ 0 ≤ st_sum_total_failures (stats (sys_state system_2))
      ≤ st_sum_total_requests (stats (sys_state system_2)).
Proof.
  split; [exact system_2_reachable|].
  exact (stats_failures_at_most_requests BACKENDS_0 system_2 system_2_reachable).
Defined.

Lemma sum_values_empty : sum_values ∅ = 0.
Proof. done. Qed.

Lemma sum_values_delete (m : gmap string Z) (k : string) :
  sum_values m = dd_get m k + sum_values (delete k m).
Proof.
  unfold dd_get. destruct (m !! k) as [v|] eqn:Hk; simpl.
  - rewrite <- (insert_delete_id m k v Hk) at 1.
    by rewrite sum_values_insert_fresh by apply lookup_delete_eq.
  - by rewrite delete_id.
Qed.

(** The sum over the values of a counter dict is the sum of its readings
    at the names of a duplicate-free list that covers its keys. *)
Lemma sum_values_names (names : list string) (m : gmap string Z) :
  NoDup names →
  (∀ k, is_Some (m !! k) → k ∈ names) →
  sum_values m = sum_list (map (dd_get m) names).
Proof.
  revert m. induction names as [|k ks IH]; intros m Hnd Hdom.
  - assert (m = ∅) as ->; [|done].
    apply map_empty. intros i. apply eq_None_not_Some. intros Hi.
    by apply Hdom, elem_of_nil in Hi.
  - apply NoDup_cons in Hnd as [Hk Hnd]. simpl.
    rewrite (sum_values_delete m k). f_equal.
    rewrite (IH (delete k m) Hnd).
    + f_equal. apply map_ext_in. intros k' Hk'%list_elem_of_In.
      unfold dd_get. rewrite lookup_delete_ne; [done|]. by intros ->.
    + intros k' [v Hv]. apply lookup_delete_Some in Hv as [Hne Hv].
      assert (k' ∈ k :: ks) as Hin by (apply Hdom; eauto).
      apply elem_of_cons in Hin as [->|Hin]; done.
Qed.

Lemma dd_add_dom (d : gmap string Z) (k k' : string) (n : Z) :
  is_Some (dd_add d k n !! k') → k' = k ∨ is_Some (d !! k').
Proof.
  unfold dd_add. destruct (decide (k = k')) as [->|Hne]; [by left|].
  rewrite lookup_insert_ne by done. by right.
Qed.

Lemma map_name_identity (l1 l2 : list Backend) :
  map identity l1 = map identity l2 → map name l1 = map name l2.
Proof.
  intros Hid.
  assert (∀ l, map name l = map (fun x => x.1.1.1) (map identity l)) as Hname
    by (intros l; rewrite map_map; by apply map_ext).
  by rewrite !Hname, Hid.
Qed.

Lemma reachable_invariant_strong (P : System → Prop) (bs : list Backend) :
  P (init bs) →
  (∀ sys sys', reachable bs sys → step sys sys' → P sys → P sys') →
  ∀ sys, reachable bs sys → P sys.
Proof.
  intros Hinit Hstep sys Hreach.
  assert (reachable bs sys ∧ P sys) as [_ HP]; [|done].
  revert sys Hreach. apply reachable_invariant.
  - split; [apply rtc_refl|done].
  - intros sys sys' Hs [Hreach HP]. split.
    + unfold reachable in *. by eapply rtc_r.
    + by eapply Hstep.
Qed.

Lemma elem_of_map_name (b : Backend) (l : list Backend) :
  b ∈ l → name b ∈ map name l.
Proof. intros Hb. apply list_elem_of_In, in_map. by apply list_elem_of_In. Qed.

Section ThreadPool.
Context (P : Thread → Prop) (ts1 ts2 : list Thread) (t : Thread).
Hypothesis Hall : ∀ x, x ∈ ts1 ++ t :: ts2 → P x.

Lemma thread_pool_here : P t.
Proof. apply Hall, elem_of_app. right. apply elem_of_cons. by left. Qed.

Lemma thread_pool_replace (t' : Thread) :
  P t' → ∀ x, x ∈ ts1 ++ t' :: ts2 → P x.
Proof.
  intros Ht' x [Hx|Hx]%elem_of_app.
  - apply Hall, elem_of_app. by left.
  - apply elem_of_cons in Hx as [->|Hx]; [done|].
    apply Hall, elem_of_app. right. apply elem_of_cons. by right.
Qed.

Lemma thread_pool_remove : ∀ x, x ∈ ts1 ++ ts2 → P x.
Proof.
  intros x [Hx|Hx]%elem_of_app; apply Hall, elem_of_app; [by left|].
  right. apply elem_of_cons. by right.
Qed.
End ThreadPool.

(** Every key of the three counter dicts, and the backend of every
    request thread, carries the name of a backend of the registry. *)
Lemma counters_dom_reachable (bs : list Backend) (sys : System) :
  reachable bs sys →
  (∀ t, t ∈ sys_threads sys → name (t_backend t) ∈ map name bs)
  ∧ (∀ k, is_Some (active_connections (sys_state sys) !! k) → k ∈ map name bs)
  ∧ (∀ k, is_Some (total_requests (sys_state sys) !! k) → k ∈ map name bs)
  ∧ (∀ k, is_Some (failed_requests (sys_state sys) !! k) → k ∈ map name bs).
Proof.
  revert sys. apply reachable_invariant_strong.
  - simpl. split; [intros t Ht; by apply elem_of_nil in Ht|].
    repeat split; intros k [v Hv]; by rewrite lookup_empty in Hv.
  - intros sys sys' Hreach Hstep.
    pose proof (registry_identity_reachable bs sys Hreach) as Hid%map_name_identity.
    destruct Hstep as [path s s' ts Hsel | path s s' b ts Hsel | s b p ts1 ts2
                      | env r s b p ts1 ts2 Hfw | s b p ts1 ts2
                      | env s b p ts1 ts2 | r s b p ts1 ts2 | i r s ts
                      | new_algo s ts];
      cbn [sys_state sys_threads] in *; intros (Hts & Hact & Htot & Hfail).
    + apply select_backend_snd in Hsel as [i ->]. done.
    + assert (b ∈ BACKENDS s) as Hb.
      { eapply (filter_elem healthy), (select_backend_elem path).
        by rewrite Hsel. }
      apply select_backend_snd in Hsel as [i ->].
      split; [|done]. intros t [Ht|Ht]%elem_of_app; [by apply Hts|].
      apply list_elem_of_singleton in Ht as ->. simpl.
      rewrite <- Hid. by apply elem_of_map_name.
    + pose proof (thread_pool_here _ _ _ _ Hts) as Hb. simpl in Hb.
      unfold track. simpl. split; [|split; [|split]]; [|..|done].
      * by apply (thread_pool_replace _ _ _ _ Hts).
      * intros k [->|Hk]%dd_add_dom; [done|by apply Hact].
      * intros k [->|Hk]%dd_add_dom; [done|by apply Htot].
    + pose proof (thread_pool_here _ _ _ _ Hts) as Hb. simpl in Hb.
      unfold record_success. simpl. split; [|done].
      by apply (thread_pool_replace _ _ _ _ Hts).
    + pose proof (thread_pool_here _ _ _ _ Hts) as Hb. simpl in Hb.
      split; [|done]. by apply (thread_pool_replace _ _ _ _ Hts).
    + pose proof (thread_pool_here _ _ _ _ Hts) as Hb. simpl in Hb.
      unfold record_failure. simpl. split; [|split; [|split]]; [|done..|].
      * by apply (thread_pool_replace _ _ _ _ Hts).
      * intros k [->|Hk]%dd_add_dom; [done|by apply Hfail].
    + pose proof (thread_pool_here _ _ _ _ Hts) as Hb. simpl in Hb.
      unfold release. simpl. split; [|split; [|done]].
      * by apply (thread_pool_remove _ _ _ _ Hts).
      * intros k [->|Hk]%dd_add_dom; [done|by apply Hact].
    + done.
    + destruct (change_algorithm_state new_algo s) as [a ->]. done.
Qed.

(** X8. When the backends of the registry have distinct names, the
    aggregate totals of [stats] are the sums of the per-backend entries
    it reports: no request is counted under a name that is not a
    backend's, and none is counted twice. *)
Theorem stats_aggregates_sum_entries (bs : list Backend) (sys : System) :
  NoDup (map name bs) → reachable bs sys →
  st_sum_total_requests (stats (sys_state sys))
  = sum_list (map st_total_requests (st_backends (stats (sys_state sys))))
  ∧ st_sum_total_failures (stats (sys_state sys))
    = sum_list (map st_failed_requests (st_backends (stats (sys_state sys)))).
Proof.
  intros Hnd Hreach.
  destruct (counters_dom_reachable bs sys Hreach) as (_ & _ & Htot & Hfail).
  pose proof (registry_identity_reachable bs sys Hreach) as Hid%map_name_identity.
  unfold stats. simpl. rewrite !map_map. simpl.
  assert (∀ m : gmap string Z,
            map (fun b => dd_get m (name b)) (BACKENDS (sys_state sys))
            = map (dd_get m) (map name bs)) as Hmap
    by (intros m; by rewrite <- Hid, map_map).
  rewrite !Hmap. split; by apply sum_values_names.
Qed.

Lemma stats_aggregates_sum_entries_witness :
  NoDup (map name BACKENDS_0)
  ∧ reachable BACKENDS_0 system_2
  ∧ st_sum_total_requests (stats (sys_state system_2))
    = sum_list (map st_total_requests (st_backends (stats (sys_state system_2)))).
Proof.
  assert (NoDup (map name BACKENDS_0)) as Hnd.
  { simpl.
    repeat (apply NoDup_cons; split;
            [rewrite ?elem_of_cons, elem_of_nil; intros Hin;
             intuition discriminate|]).
    apply NoDup_nil_2. }
  split; [exact Hnd|]. split; [exact system_2_reachable|].
  exact (proj1 (stats_aggregates_sum_entries BACKENDS_0 system_2 Hnd
                  system_2_reachable)).
Defined.

(** ** A forward that returns *)

(** X9. When the forward to the selected backend returns, the rest of
    [proxy] hands the backend's answer to the caller as it is, whatever
    its status code (a 500 of the backend is not a failure of the
    forward): it appends the duration to the backend's latency sequence,
    appends a [success] record whose [optimized] flag says whether the
    backend's type is the request's type, decrements the active count,
    and leaves the failed and total counts and the registry as they
    were. *)
Theorem answered_forward_bookkeeping (env : Env) (b : Backend) (p : string)
    (s : State) (r : Response) :
  forward env = Forwarded r →
  snd (complete env b p s) = r
  ∧ (∀ n, dd_get (active_connections (fst (complete env b p s))) n
          = dd_get (active_connections s) n
            - (if String.eqb (name b) n then 1 else 0))
  ∧ failed_requests (fst (complete env b p s)) = failed_requests s
  ∧ total_requests (fst (complete env b p s)) = total_requests s
  ∧ (∀ n, dl_get (response_times (fst (complete env b p s))) n
          = if String.eqb (name b) n
            then dl_get (response_times s) n ++ [elapsed env]
            else dl_get (response_times s) n)
  ∧ request_history (fst (complete env b p s))
    = history_append
        (mkRecord (now env) ("/" +:+ p) (request_type_of p) (name b)
                  (to_ms (elapsed env)) "success"
                  (String.eqb (type b) (request_type_of p)))
        (request_history s)
  ∧ BACKENDS (fst (complete env b p s)) = BACKENDS s.
Proof.
  intros Hfw. unfold complete. rewrite Hfw.
  unfold release, record_success. cbn [fst snd].
  repeat split; try done.
  - intros n. simpl. rewrite dd_get_add. case_match; lia.
  - intros n. simpl. rewrite dl_get_append.
    destruct (String.eqb_spec (name b) n) as [->|Hne]; done.
Qed.

Lemma answered_forward_bookkeeping_witness :
  forward (mkEnv (Forwarded (mkResponse 500 (Raw "boom"))) (1 # 2)%Q "12:00:01")
  = Forwarded (mkResponse 500 (Raw "boom"))
  ∧ snd (complete
           (mkEnv (Forwarded (mkResponse 500 (Raw "boom"))) (1 # 2)%Q "12:00:01")
           ServerB "api/users" (track "ServerB" state_0))
    = mkResponse 500 (Raw "boom")
  ∧ failed_requests
      (fst (complete
              (mkEnv (Forwarded (mkResponse 500 (Raw "boom"))) (1 # 2)%Q
                     "12:00:01")
              ServerB "api/users" (track "ServerB" state_0)))
    = failed_requests (track "ServerB" state_0).
Proof.
  pose proof (answered_forward_bookkeeping
                (mkEnv (Forwarded (mkResponse 500 (Raw "boom"))) (1 # 2)%Q
                       "12:00:01")
                ServerB "api/users" (track "ServerB" state_0)
                (mkResponse 500 (Raw "boom")) eq_refl)
    as (Hresp & _ & Hfailed & _).
  split; [reflexivity|]. split; [exact Hresp | exact Hfailed].
Defined.

(** ** The registry and the policy under [proxy] *)

Lemma complete_registry (env : Env) (b : Backend) (p : string) (s : State) :
  BACKENDS (fst (complete env b p s)) = BACKENDS s
  ∧ ALGORITHM (fst (complete env b p s)) = ALGORITHM s
  ∧ current_index (fst (complete env b p s)) = current_index s.
Proof. unfold complete. by destruct (forward env). Qed.

Lemma proxy_registry (env : Env) (path : string) (s : State) :
  BACKENDS (fst (proxy env path s)) = BACKENDS s
  ∧ ALGORITHM (fst (proxy env path s)) = ALGORITHM s.
Proof.
  unfold proxy. destruct (select_backend path s) as [[b|] s1] eqn:Hsel;
    apply select_backend_snd in Hsel as [i ->]; [|done].
  destruct (complete_registry env b path
              (track (name b) (set_current_index i s))) as (-> & -> & _).
  done.
Qed.

(** X10. [proxy] never touches the registry or the policy: whatever the
    outcome of the forward, the health flags are as before, so a backend
    whose forward failed stays in the healthy list until the health
    checker probes it, and there is no second attempt on another
    backend. *)
Theorem proxy_leaves_health_and_policy (env : Env) (path : string) (s : State) :
  BACKENDS (fst (proxy env path s)) = BACKENDS s
  ∧ get_healthy_backends (fst (proxy env path s)) = get_healthy_backends s
  ∧ ALGORITHM (fst (proxy env path s)) = ALGORITHM s
  ∧ (∀ n, dd_get (total_requests (fst (proxy env path s))) n
          ≤ dd_get (total_requests s) n + 1).
Proof.
  destruct (proxy_registry env path s) as [Hbs Halg].
  split; [done|]. split; [unfold get_healthy_backends; by rewrite Hbs|].
  split; [done|].
  intros n. unfold proxy.
  destruct (select_backend path s) as [[b|] s1] eqn:Hsel;
    apply select_backend_snd in Hsel as [i ->]; [|simpl; lia].
  rewrite complete_total_requests. unfold track. simpl.
  rewrite dd_get_add. case_match; lia.
Qed.

(** ** The [optimized] flag under content-based routing *)

Lemma affinity_request_type (path ty : string) :
  affinity_of path = Some ty → request_type_of path = ty.
Proof.
  unfold affinity_of, request_type_of. repeat case_match; congruence.
Qed.

Lemma content_based_routing_affinity (path ty : string) (s : State) :
  affinity_of path = Some ty → get_healthy_backends s ≠ [] →
  content_based_routing path s = affinity_arm s (get_healthy_backends s) ty.
Proof.
  unfold affinity_of, content_based_routing. intros Hty Hne.
  destruct (get_healthy_backends s) eqn:Hhs; [done|].
  repeat case_match; congruence.
Qed.

Lemma affinity_arm_hit (s : State) (ty : string) :
  matching ty s ≠ [] →
  ∃ b, affinity_arm s (get_healthy_backends s) ty = (Some b, s) ∧ type b = ty.
Proof.
  intros Hne. unfold affinity_arm. fold (matching ty s).
  destruct (py_min_is_Some (load s) (matching ty s) Hne) as [b Hb].
  exists b. split.
  - rewrite Hb. by destruct (matching ty s).
  - apply py_min_elem, filter_elem in Hb as [_ Hty]. by apply String.eqb_eq.
Qed.

Lemma affinity_arm_miss (s : State) (ty : string) :
  matching ty s = [] → get_healthy_backends s ≠ [] →
  ∃ b i, affinity_arm s (get_healthy_backends s) ty
         = (Some b, set_current_index i s)
         ∧ type b ≠ ty.
Proof.
  intros Hnil Hne. unfold affinity_arm. fold (matching ty s). rewrite Hnil.
  destruct (round_robin_nonempty s Hne) as (b & Hb & Hrr).
  exists b, (current_index s + 1). split; [done|].
  intros Hty.
  assert (b ∈ matching ty s) as Hin.
  { apply filter_elem. split; [apply list_elem_of_lookup; eauto|].
    by apply String.eqb_eq. }
  rewrite Hnil in Hin. by apply elem_of_nil in Hin.
Qed.

Lemma select_backend_content_based (path : string) (s : State) :
  ALGORITHM s = "content-based" →
  select_backend path s = content_based_routing path s.
Proof. intros Halg. unfold select_backend. by rewrite Halg. Qed.

(** X11. Under the content-based policy, a request whose path has one of
    the three prefixes and whose forward returns is logged with its
    content type, and its record is [optimized] exactly when some healthy
    backend has the matching type: with one, the request went to a
    backend of that type; with none, round-robin picked a backend of
    another type. *)
Theorem content_based_optimized (env : Env) (path ty : string) (s : State)
    (r : Response) :
  ALGORITHM s = "content-based" → affinity_of path = Some ty →
  forward env = Forwarded r → get_healthy_backends s ≠ [] →
  ∃ rec : RequestRecord,
    last (request_history (fst (proxy env path s))) = Some rec
    ∧ rec_status rec = "success"
    ∧ rec_type rec = ty
    ∧ (rec_optimized rec = true ↔ matching ty s ≠ []).
Proof.
  intros Halg Hty Hfw Hne. unfold proxy.
  rewrite (select_backend_content_based path s Halg).
  rewrite (content_based_routing_affinity path ty s Hty Hne).
  pose proof (affinity_request_type path ty Hty) as Hrt.
  destruct (matching ty s) as [|m ms] eqn:Hm.
  - destruct (affinity_arm_miss s ty Hm Hne) as (b & i & -> & Hb).
    unfold complete. rewrite Hfw. unfold release, record_success. cbn.
    eexists. split; [apply history_append_last|]. cbn.
    split; [done|]. split; [done|]. rewrite Hrt.
    split; [|done]. intros Heq%String.eqb_eq. done.
  - destruct (affinity_arm_hit s ty) as (b & -> & Hb); [by rewrite Hm|].
    unfold complete. rewrite Hfw. unfold release, record_success. cbn.
    eexists. split; [apply history_append_last|]. cbn.
    split; [done|]. split; [done|]. rewrite Hrt, Hb.
    split; [done|]. intros _. apply String.eqb_refl.
Qed.

Lemma content_based_optimized_witness :
  ALGORITHM state_0 = "content-based"
  ∧ affinity_of "video/movie.mp4" = Some "video"
  ∧ forward env_ok = Forwarded (mkResponse 200 (Raw "ok"))
  ∧ get_healthy_backends state_0 ≠ []
  ∧ ∃ rec : RequestRecord,
      last (request_history (fst (proxy env_ok "video/movie.mp4" state_0)))
      = Some rec
      ∧ rec_status rec = "success"
      ∧ rec_type rec = "video"
      ∧ (rec_optimized rec = true ↔ matching "video" state_0 ≠ []).
Proof.
  assert (get_healthy_backends state_0 ≠ []) as Hne by (by vm_compute).
  split; [reflexivity|]. split; [reflexivity|]. split; [reflexivity|].
  split; [exact Hne|].
  exact (content_based_optimized env_ok "video/movie.mp4" "video" state_0
           (mkResponse 200 (Raw "ok")) eq_refl eq_refl eq_refl Hne).
Defined.

(** ** Requests served one after the other *)

Lemma proxy_sums (env : Env) (path : string) (s : State) :
  get_healthy_backends s ≠ [] →
  sum_values (total_requests (fst (proxy env path s)))
  = sum_values (total_requests s) + 1
  ∧ sum_values (failed_requests (fst (proxy env path s)))
    = sum_values (failed_requests s)
      + match forward env with TransportError => 1 | Forwarded _ => 0 end
  ∧ (∀ n, dd_get (active_connections (fst (proxy env path s))) n
          = dd_get (active_connections s) n).
Proof.
  intros Hne. unfold proxy.
  destruct (select_backend_is_Some path s Hne) as [b Hb].
  destruct (select_backend path s) as [r s1] eqn:Hsel. simpl in Hb. subst r.
  apply select_backend_snd in Hsel as [i ->].
  unfold complete, release, record_success, record_failure, track.
  destruct (forward env); cbn; rewrite ?sum_values_add;
    (split; [lia|split; [lia|]]);
    intros n; rewrite !dd_get_add; case_match; lia.
Qed.

(** X12. While some backend is healthy, serving [n] requests one after
    the other raises the aggregate total by exactly [n] and the aggregate
    failures by the number of forwards that raised, and brings every
    active-connection count back to where it was; without a healthy
    backend no counter moves. *)
Theorem serving_in_sequence (reqs : list (Env * string)) (s : State) :
  (get_healthy_backends s ≠ [] →
   sum_values (total_requests (proxy_all reqs s))
   = sum_values (total_requests s) + Z.of_nat (length reqs)
   ∧ sum_values (failed_requests (proxy_all reqs s))
     = sum_values (failed_requests s) + failures_in reqs
   ∧ (∀ n, dd_get (active_connections (proxy_all reqs s)) n
           = dd_get (active_connections s) n))
  ∧ (get_healthy_backends s = [] → proxy_all reqs s = s).
Proof.
  split.
  - revert s. induction reqs as [|[env path] reqs IH]; intros s Hne.
    + unfold failures_in. simpl. repeat split; lia.
    + cbn [proxy_all].
      destruct (proxy_sums env path s Hne) as (Htot & Hfail & Hact).
      destruct (proxy_registry env path s) as [Hbs _].
      assert (get_healthy_backends (fst (proxy env path s)) ≠ []) as Hne'
        by (unfold get_healthy_backends in *; by rewrite Hbs).
      destruct (IH _ Hne') as (Htot' & Hfail' & Hact').
      rewrite Htot', Hfail', Htot, Hfail.
      split; [|split].
      * simpl length. lia.
      * unfold failures_in. cbn [List.filter fst].
        destruct (forward env); simpl length; lia.
      * intros n. by rewrite Hact', Hact.
  - intros Hnil. induction reqs as [|[env path] reqs IH]; [done|].
    cbn [proxy_all]. unfold proxy. rewrite select_backend_empty by done.
    exact IH.
Qed.

Lemma serving_in_sequence_witness :
  get_healthy_backends state_0 ≠ []
  ∧ sum_values (total_requests
                  (proxy_all [(env_ok, "video/a.mp4"); (env_timeout, "api/x")]
                             state_0))
    = sum_values (total_requests state_0) + 2
  ∧ sum_values (failed_requests
                  (proxy_all [(env_ok, "video/a.mp4"); (env_timeout, "api/x")]
                             state_0))
    = sum_values (failed_requests state_0)
      + failures_in [(env_ok, "video/a.mp4"); (env_timeout, "api/x")].
Proof.
  assert (get_healthy_backends state_0 ≠ []) as Hne by (by vm_compute).
  destruct (proj1 (serving_in_sequence
                     [(env_ok, "video/a.mp4"); (env_timeout, "api/x")] state_0)
                  Hne) as (Htot & Hfail & _).
  split; [exact Hne|]. split; [exact Htot | exact Hfail].
Defined.

(** ** The round-robin cursor *)

Lemma round_robin_cursor (s : State) :
  snd (round_robin s) = s
  ∨ snd (round_robin s) = set_current_index (current_index s + 1) s.
Proof. unfold round_robin. destruct (get_healthy_backends s); auto. Qed.

Lemma select_backend_cursor (path : string) (s : State) :
  snd (select_backend path s) = s
  ∨ snd (select_backend path s) = set_current_index (current_index s + 1) s.
Proof.
  unfold select_backend, content_based_routing, file_size_based_routing,
    affinity_arm.
  repeat case_match; simpl; auto using round_robin_cursor.
Qed.

(** X13. The cursor is never reset: it is never negative, and a step of
    the program leaves it where it is or adds one to it. *)
Theorem cursor_never_reset (bs : list Backend) (sys sys' : System) :
  reachable bs sys → step sys sys' →
  0 ≤ current_index (sys_state sys)
  ∧ (current_index (sys_state sys') = current_index (sys_state sys)
     ∨ current_index (sys_state sys') = current_index (sys_state sys) + 1).
Proof.
  intros Hreach Hstep. split.
  - clear Hstep sys'. revert sys Hreach. apply reachable_invariant; [done|].
    intros sys sys' Hstep.
    destruct Hstep as [path s s' ts Hsel | path s s' b ts Hsel | s b p ts1 ts2
                      | env r s b p ts1 ts2 Hfw | s b p ts1 ts2
                      | env s b p ts1 ts2 | r s b p ts1 ts2 | i r s ts
                      | new_algo s ts];
      cbn [sys_state]; try done.
    + destruct (select_backend_cursor path s) as [Hs|Hs];
        rewrite Hsel in Hs; simpl in Hs; subst s'; simpl; lia.
    + destruct (select_backend_cursor path s) as [Hs|Hs];
        rewrite Hsel in Hs; simpl in Hs; subst s'; simpl; lia.
    + destruct (change_algorithm_state new_algo s) as [a ->]. done.
  - destruct Hstep as [path s s' ts Hsel | path s s' b ts Hsel | s b p ts1 ts2
                      | env r s b p ts1 ts2 Hfw | s b p ts1 ts2
                      | env s b p ts1 ts2 | r s b p ts1 ts2 | i r s ts
                      | new_algo s ts];
      cbn [sys_state]; auto.
    + destruct (select_backend_cursor path s) as [Hs|Hs];
        rewrite Hsel in Hs; simpl in Hs; subst s'; auto.
    + destruct (select_backend_cursor path s) as [Hs|Hs];
        rewrite Hsel in Hs; simpl in Hs; subst s'; auto.
    + destruct (change_algorithm_state new_algo s) as [a ->]. auto.
Qed.

Lemma cursor_never_reset_witness :
  reachable BACKENDS_0 system_1
  ∧ step system_1
         (mkSystem (track "ServerA" state_0)
                   [mkThread ServerA "video/a.mp4" Raised])
  ∧ 0 ≤ current_index (sys_state system_1).
Proof.
  assert (step system_1
            (mkSystem (track "ServerA" state_0)
                      [mkThread ServerA "video/a.mp4" Raised])) as Hstep.
  { exact (step_forward_raise (track "ServerA" state_0) ServerA "video/a.mp4"
                              [] []). }
  split; [exact system_1_reachable|]. split; [exact Hstep|].
  exact (proj1 (cursor_never_reset BACKENDS_0 system_1 _ system_1_reachable
                  Hstep)).
Defined.

(** ** A pass of the health checker *)

(** The test the health checker applies to a probe. *)
Lemma healthy_probe (r : probe_result) (b : Backend) :
  healthy (probe r b)
  = match r with ProbeStatus code => code =? 200 | ProbeRaised => false end.
Proof. by destruct r. Qed.

Lemma health_check_loop_spec (results : Backend → probe_result)
    (todo done : list Backend) (s : State) :
  BACKENDS s = done ++ todo →
  health_check_loop results (length todo) (length done) s
  = set_BACKENDS (done ++ map (fun b => probe (results b) b) todo) s.
Proof.
  revert done s. induction todo as [|b todo IH]; intros done s Hbs.
  - simpl. rewrite <- Hbs. by destruct s.
  - cbn [length health_check_loop].
    assert (BACKENDS s !! length done = Some b) as ->
      by (rewrite Hbs; by apply list_lookup_middle).
    assert (BACKENDS (health_check_at (length done) (results b) s)
            = (done ++ [probe (results b) b]) ++ todo) as Hbs'.
    { unfold health_check_at. simpl. rewrite Hbs.
      replace (length done) with (length done + 0)%nat at 1 by lia.
      rewrite alter_app_r. simpl. by rewrite <- app_assoc. }
    specialize (IH (done ++ [probe (results b) b]) _ Hbs').
    rewrite length_app in IH. simpl in IH.
    replace (length done + 1)%nat with (S (length done)) in IH by lia.
    rewrite IH. unfold health_check_at, set_BACKENDS. simpl.
    by rewrite <- app_assoc.
Qed.

Lemma health_check_loop_steps (results : Backend → probe_result) (fuel i : nat)
    (s : State) (ts : list Thread) :
  rtc step (mkSystem s ts) (mkSystem (health_check_loop results fuel i s) ts).
Proof.
  revert i s. induction fuel as [|fuel IH]; intros i s; [apply rtc_refl|].
  simpl. destruct (BACKENDS s !! i) as [b|]; [|apply rtc_refl].
  eapply rtc_l; [apply step_health|]. apply IH.
Qed.

Lemma healthy_after_pass (results : Backend → probe_result) (l : list Backend) :
  List.filter healthy (map (fun b => probe (results b) b) l)
  = map (set_healthy true)
        (List.filter
           (fun b => match results b with
                     | ProbeStatus code => code =? 200
                     | ProbeRaised => false
                     end) l).
Proof.
  induction l as [|b l IH]; [done|]. simpl.
  rewrite healthy_probe, IH.
  destruct (results b) as [code|]; simpl; [|done].
  by destruct (code =? 200).
Qed.

(** X14. One pass of the health checker, probing the backends one after
    the other, sets every flag from that backend's probe alone: the pass
    is a run of single-flag steps of the program, and after it the
    healthy list consists of exactly the backends whose probe answered
    200, in declaration order, whatever their flags were before. *)
Theorem health_check_pass (results : Backend → probe_result) (s : State)
    (ts : list Thread) :
  health_check_loop results (length (BACKENDS s)) 0 s = health_check results s
  ∧ rtc step (mkSystem s ts) (mkSystem (health_check results s) ts)
  ∧ get_healthy_backends (health_check results s)
    = map (set_healthy true)
          (List.filter
             (fun b => match results b with
                       | ProbeStatus code => code =? 200
                       | ProbeRaised => false
                       end) (BACKENDS s))
  ∧ map identity (BACKENDS (health_check results s))
    = map identity (BACKENDS s).
Proof.
  assert (health_check_loop results (length (BACKENDS s)) 0 s
          = health_check results s) as Hloop
    by exact (health_check_loop_spec results (BACKENDS s) [] s eq_refl).
  split; [exact Hloop|]. split; [|split].
  - rewrite <- Hloop. apply health_check_loop_steps.
  - unfold get_healthy_backends, health_check. simpl. apply healthy_after_pass.
  - unfold health_check. simpl. rewrite map_map. apply map_ext.
    intros b. apply identity_probe.
Qed.

Example health_check_pass_mixed :
  map name
    (get_healthy_backends
       (health_check
          (fun b => if String.eqb (name b) "ServerB" then ProbeStatus 503
                    else ProbeStatus 200)
          state_all_down))
  = ["ServerA"; "ServerC"].
Proof. reflexivity. Qed.

(** ** Least-connections keeps the load level *)

Lemma least_connections_min (s : State) (b : Backend) :
  least_connections s = Some b →
  b ∈ get_healthy_backends s
  ∧ ∀ b', b' ∈ get_healthy_backends s → load s b ≤ load s b'.
Proof.
  unfold least_connections.
  destruct (get_healthy_backends s) as [|b0 bs] eqn:Hhs; [done|].
  intros Hmin. split; [by apply (py_min_elem (load s))|].
  destruct (py_min_spec (load s) (b0 :: bs)) as (b1 & i & Hb1 & _ & Hle & _);
    [done|].
  rewrite Hmin in Hb1. simplify_eq.
  intros b' [j Hj]%list_elem_of_lookup. by eapply Hle.
Qed.

Lemma dispatch_least_connections (path : string) (s : State) :
  ALGORITHM s = "least-connections" →
  dispatch path s
  = match least_connections s with
    | Some b => track (name b) s
    | None => s
    end.
Proof. intros Halg. unfold dispatch, select_backend. by rewrite Halg. Qed.

Lemma dispatch_level (path : string) (s : State) (m : Z) :
  ALGORITHM s = "least-connections" →
  (∀ b, b ∈ get_healthy_backends s → m ≤ load s b ≤ m + 1) →
  ALGORITHM (dispatch path s) = "least-connections"
  ∧ get_healthy_backends (dispatch path s) = get_healthy_backends s
  ∧ ∃ m', ∀ b, b ∈ get_healthy_backends s →
               m' ≤ load (dispatch path s) b ≤ m' + 1.
Proof.
  intros Halg Hlevel. rewrite (dispatch_least_connections path s Halg).
  destruct (least_connections s) as [b0|] eqn:Hmin; [|eauto].
  destruct (least_connections_min s b0 Hmin) as [Hin Hle].
  split; [done|]. split; [done|].
  assert (∀ b, load (track (name b0) s) b
               = load s b + (if String.eqb (name b0) (name b) then 1 else 0))
    as Hload by (intros b; unfold load, track; simpl; apply dd_get_add).
  assert (∀ b, name b0 = name b → load s b = load s b0) as Hsame
    by (intros b Hb; unfold load; by rewrite Hb).
  pose proof (Hlevel b0 Hin) as Hb0.
  destruct (decide (load s b0 = m)) as [Hlow|Hhigh].
  - exists m. intros b Hb. rewrite Hload. specialize (Hlevel b Hb).
    destruct (String.eqb_spec (name b0) (name b)) as [Heq|Hne]; [|lia].
    rewrite (Hsame b Heq). lia.
  - exists (m + 1). intros b Hb. rewrite Hload.
    specialize (Hlevel b Hb). specialize (Hle b Hb).
    destruct (String.eqb_spec (name b0) (name b)) as [Heq|Hne]; lia.
Qed.

Lemma dispatch_all_level (paths : list string) (s : State) (m : Z) :
  ALGORITHM s = "least-connections" →
  (∀ b, b ∈ get_healthy_backends s → m ≤ load s b ≤ m + 1) →
  get_healthy_backends (dispatch_all paths s) = get_healthy_backends s
  ∧ ∃ m', ∀ b, b ∈ get_healthy_backends s →
               m' ≤ load (dispatch_all paths s) b ≤ m' + 1.
Proof.
  revert s m. induction paths as [|path paths IH]; intros s m Halg Hlevel;
    [eauto|].
  cbn [dispatch_all].
  destruct (dispatch_level path s m Halg Hlevel) as (Halg' & Hhs' & m1 & Hm1).
  destruct (IH (dispatch path s) m1 Halg') as (Hhs'' & m2 & Hm2).
  { intros b Hb. apply Hm1. by rewrite <- Hhs'. }
  split; [by rewrite Hhs''|].
  exists m2. intros b Hb. apply Hm2. by rewrite Hhs'.
Qed.

Lemma dispatch_registry (path : string) (s : State) :
  BACKENDS (dispatch path s) = BACKENDS s.
Proof.
  unfold dispatch. destruct (select_backend path s) as [[b|] s1] eqn:Hsel;
    apply select_backend_snd in Hsel as [i ->]; done.
Qed.

Lemma dispatch_all_registry (paths : list string) (s : State) :
  BACKENDS (dispatch_all paths s) = BACKENDS s.
Proof.
  revert s. induction paths as [|path paths IH]; intros s; [done|].
  cbn [dispatch_all]. by rewrite IH, dispatch_registry.
Qed.

(** [dispatch] is a schedule of the program: the selection, then the
    increment by the same thread. *)
Lemma dispatch_is_a_schedule (path : string) (s : State) (ts : list Thread) :
  ∃ ts', rtc step (mkSystem s ts) (mkSystem (dispatch path s) ts').
Proof.
  unfold dispatch. destruct (select_backend path s) as [[b|] s1] eqn:Hsel.
  - exists (ts ++ [mkThread b path Tracked]).
    eapply rtc_l; [by eapply step_select|].
    eapply rtc_l; [apply step_track|]. apply rtc_refl.
  - exists ts. eapply rtc_l; [by eapply step_reject|]. apply rtc_refl.
Qed.

Lemma dispatch_all_is_a_schedule (paths : list string) (s : State)
    (ts : list Thread) :
  ∃ ts', rtc step (mkSystem s ts) (mkSystem (dispatch_all paths s) ts').
Proof.
  revert s ts. induction paths as [|path paths IH]; intros s ts.
  - exists ts. apply rtc_refl.
  - cbn [dispatch_all].
    destruct (dispatch_is_a_schedule path s ts) as [ts1 Hrun1].
    destruct (IH (dispatch path s) ts1) as [ts2 Hrun2].
    exists ts2. by etrans.
Qed.

(** X15. Under least-connections, when requests are dispatched strictly
    one after the other, each one selected after the counters of the one
    before were incremented, and none completes, the backends with their
    health flag set stay level: if their active-connection counts were
    within one of each other before, they are within one of each other
    after any number of such dispatches.  Such a run is a schedule of the
    program; the selection is not under the lock, and a schedule in which
    two requests select before either increments can pile both on one
    backend. *)
Theorem least_connections_stays_level (paths : list string) (s : State) (m : Z) :
  ALGORITHM s = "least-connections" →
  (∀ b, b ∈ BACKENDS s → healthy b = true →
        m ≤ default 0 (active_connections s !! name b) ≤ m + 1) →
  (∀ ts, ∃ ts',
     rtc step (mkSystem s ts) (mkSystem (dispatch_all paths s) ts'))
  ∧ BACKENDS (dispatch_all paths s) = BACKENDS s
  ∧ ∀ b b', b ∈ BACKENDS s → healthy b = true →
            b' ∈ BACKENDS s → healthy b' = true →
            default 0 (active_connections (dispatch_all paths s) !! name b)
            ≤ default 0 (active_connections (dispatch_all paths s) !! name b')
              + 1.
Proof.
  intros Halg Hlevel.
  split; [intros ts; apply dispatch_all_is_a_schedule|].
  split; [apply dispatch_all_registry|].
  destruct (dispatch_all_level paths s m Halg) as (_ & m' & Hm').
  { intros b [Hb Hh]%filter_elem. by apply Hlevel. }
  intros b b' Hb Hh Hb' Hh'.
  assert (b ∈ get_healthy_backends s) as Hin by (by apply filter_elem).
  assert (b' ∈ get_healthy_backends s) as Hin' by (by apply filter_elem).
  pose proof (Hm' b Hin) as Hl. pose proof (Hm' b' Hin') as Hl'.
  unfold load, dd_get in Hl, Hl'. lia.
Qed.

Lemma least_connections_stays_level_witness :
  ALGORITHM (set_ALGORITHM "least-connections" state_0) = "least-connections"
  ∧ (∀ b, b ∈ BACKENDS (set_ALGORITHM "least-connections" state_0) →
          healthy b = true →
          0 ≤ default 0 (active_connections
                           (set_ALGORITHM "least-connections" state_0)
                         !! name b) ≤ 0 + 1)
  ∧ map (fun b => default 0
                    (active_connections
                       (dispatch_all ["a"; "b"; "c"; "d"]
                          (set_ALGORITHM "least-connections" state_0))
                     !! name b))
        BACKENDS_0
    = [2; 1; 1]
  ∧ ∀ b b', b ∈ BACKENDS (set_ALGORITHM "least-connections" state_0) →
            healthy b = true →
            b' ∈ BACKENDS (set_ALGORITHM "least-connections" state_0) →
            healthy b' = true →
            default 0 (active_connections
                         (dispatch_all ["a"; "b"; "c"; "d"]
                            (set_ALGORITHM "least-connections" state_0))
                       !! name b)
            ≤ default 0 (active_connections
                           (dispatch_all ["a"; "b"; "c"; "d"]
                              (set_ALGORITHM "least-connections" state_0))
                         !! name b')
              + 1.
Proof.
  assert (∀ b, b ∈ BACKENDS (set_ALGORITHM "least-connections" state_0) →
               healthy b = true →
               0 ≤ default 0 (active_connections
                                (set_ALGORITHM "least-connections" state_0)
                              !! name b) ≤ 0 + 1)
    as Hlevel.
  { intros b Hb Hh. simpl. rewrite lookup_empty. simpl. lia. }
  split; [reflexivity|]. split; [exact Hlevel|]. split; [reflexivity|].
  exact (proj2 (proj2 (least_connections_stays_level ["a"; "b"; "c"; "d"]
                         (set_ALGORITHM "least-connections" state_0) 0 eq_refl
                         Hlevel))).
Defined.

(** Two requests that both select before either increments: both go to
    [ServerA], which then holds two connections while the others hold
    none. *)
Example overlapping_selections_pile_up :
  rtc step
    (mkSystem (set_ALGORITHM "least-connections" state_0) [])
    (mkSystem (track "ServerA"
                 (track "ServerA" (set_ALGORITHM "least-connections" state_0)))
              [mkThread ServerA "a" Tracked; mkThread ServerA "b" Tracked])
  ∧ map (fun b => default 0
                    (active_connections
                       (track "ServerA"
                          (track "ServerA"
                             (set_ALGORITHM "least-connections" state_0)))
                     !! name b))
        BACKENDS_0
    = [2; 0; 0].
Proof.
  split; [|reflexivity].
  eapply rtc_l;
    [by apply (step_select "a" (set_ALGORITHM "least-connections" state_0)
                 (set_ALGORITHM "least-connections" state_0) ServerA [])|].
  eapply rtc_l;
    [by apply (step_select "b" (set_ALGORITHM "least-connections" state_0)
                 (set_ALGORITHM "least-connections" state_0) ServerA
                 [mkThread ServerA "a" Selected])|].
  eapply rtc_l;
    [apply (step_track (set_ALGORITHM "least-connections" state_0) ServerA "a"
              [] [mkThread ServerA "b" Selected])|].
  eapply rtc_l;
    [apply (step_track (track "ServerA"
                          (set_ALGORITHM "least-connections" state_0))
              ServerA "b" [mkThread ServerA "a" Tracked] [])|].
  apply rtc_refl.
Qed.

(** * The backend server *)

Lemma processing_times_known (ty : string) :
  is_Some (BackendServer.PROCESSING_TIMES !! ty)
  ↔ ty ∈ ["video"; "api"; "image"; "general"].
Proof.
  unfold BackendServer.PROCESSING_TIMES. cbn [list_to_map foldr uncurry].
  rewrite !lookup_insert_is_Some', lookup_empty, !elem_of_cons, elem_of_nil.
  split.
  - intros [<-|[<-|[<-|[<-|[x Hx]]]]]; auto 10. discriminate.
  - intros [->|[->|[->|[->|[]]]]]; auto 10.
Qed.

Lemma get_processing_time_known (cfg : BackendServer.Config) (kind : string) :
  BackendServer.SERVER_TYPE cfg ∈ ["video"; "api"; "image"; "general"] →
  is_Some (BackendServer.get_processing_time cfg kind).
Proof.
  unfold BackendServer.get_processing_time.
  rewrite !elem_of_cons, elem_of_nil.
  intros [->|[->|[->|[->|[]]]]]; vm_compute; by eexists.
Qed.

Lemma get_processing_time_unknown (cfg : BackendServer.Config) (kind : string) :
  BackendServer.SERVER_TYPE cfg ∉ ["video"; "api"; "image"; "general"] →
  BackendServer.get_processing_time cfg kind = None.
Proof.
  intros Hty. unfold BackendServer.get_processing_time.
  destruct (BackendServer.PROCESSING_TIMES !! BackendServer.SERVER_TYPE cfg)
    eqn:Hrow; [|done].
  exfalso. apply Hty, processing_times_known. by rewrite Hrow.
Qed.

Lemma handle_counters (cfg : BackendServer.Config) (c : BackendServer.Call)
    (st : BackendServer.ServerStats) :
  BackendServer.total_requests (fst (BackendServer.handle cfg c st))
  = BackendServer.total_requests st
    + (if BackendServer.counted (BackendServer.call_request c) then 1 else 0)
  ∧ BackendServer.video_requests st
    ≤ BackendServer.video_requests (fst (BackendServer.handle cfg c st))
  ∧ BackendServer.api_requests st
    ≤ BackendServer.api_requests (fst (BackendServer.handle cfg c st))
  ∧ BackendServer.image_requests st
    ≤ BackendServer.image_requests (fst (BackendServer.handle cfg c st))
  ∧ BackendServer.video_requests (fst (BackendServer.handle cfg c st))
    + BackendServer.api_requests (fst (BackendServer.handle cfg c st))
    + BackendServer.image_requests (fst (BackendServer.handle cfg c st))
    - BackendServer.total_requests (fst (BackendServer.handle cfg c st))
    ≤ BackendServer.video_requests st + BackendServer.api_requests st
      + BackendServer.image_requests st - BackendServer.total_requests st
  ∧ BackendServer.start_time (fst (BackendServer.handle cfg c st))
    = BackendServer.start_time st.
Proof.
  unfold BackendServer.handle, BackendServer.home, BackendServer.health,
    BackendServer.video, BackendServer.api, BackendServer.image,
    BackendServer.content, BackendServer.server_stats, BackendServer.crash.
  destruct (BackendServer.call_request c); simpl;
    try destruct (BackendServer.get_processing_time cfg _); simpl;
    repeat split; lia.
Qed.

(** X16. The counters of a backend server only grow: [total_requests]
    counts the requests to [/], [/video/], [/api/] and [/image/], whether
    or not their handler raised, and never those to [/health], [/stats]
    and [/crash]; the three per-type counters together never grow by
    more than the total does, and [start_time] is never rewritten. *)
Theorem backend_server_counters (cfg : BackendServer.Config)
    (calls : list BackendServer.Call) (st : BackendServer.ServerStats) :
  BackendServer.total_requests (BackendServer.serve cfg calls st)
  = BackendServer.total_requests st
    + Z.of_nat
        (length (List.filter
                   (fun c => BackendServer.counted (BackendServer.call_request c))
                   calls))
  ∧ BackendServer.video_requests st
    ≤ BackendServer.video_requests (BackendServer.serve cfg calls st)
  ∧ BackendServer.api_requests st
    ≤ BackendServer.api_requests (BackendServer.serve cfg calls st)
  ∧ BackendServer.image_requests st
    ≤ BackendServer.image_requests (BackendServer.serve cfg calls st)
  ∧ BackendServer.video_requests (BackendServer.serve cfg calls st)
    + BackendServer.api_requests (BackendServer.serve cfg calls st)
    + BackendServer.image_requests (BackendServer.serve cfg calls st)
    - BackendServer.total_requests (BackendServer.serve cfg calls st)
    ≤ BackendServer.video_requests st + BackendServer.api_requests st
      + BackendServer.image_requests st - BackendServer.total_requests st
  ∧ BackendServer.start_time (BackendServer.serve cfg calls st)
    = BackendServer.start_time st.
Proof.
  revert st. induction calls as [|c calls IH]; intros st.
  - simpl. repeat split; lia.
  - cbn [BackendServer.serve List.filter].
    destruct (handle_counters cfg c st) as (Ht & Hv & Ha & Hi & Hsum & Hst).
    destruct (IH (fst (BackendServer.handle cfg c st)))
      as (Ht' & Hv' & Ha' & Hi' & Hsum' & Hst').
    rewrite Ht', Ht, Hst', Hst.
    destruct (BackendServer.counted (BackendServer.call_request c));
      simpl length; repeat split; lia.
Qed.

(** X17. A backend server started with one of the four types of
    [PROCESSING_TIMES] answers every request with 200: no handler raises,
    whatever the route, the clock and the random draw. *)
Theorem backend_server_known_type (cfg : BackendServer.Config)
    (c : BackendServer.Call) (st : BackendServer.ServerStats) :
  BackendServer.SERVER_TYPE cfg ∈ ["video"; "api"; "image"; "general"] →
  ∃ body, snd (BackendServer.handle cfg c st) = BackendServer.Returned 200 body.
Proof.
  intros Hty.
  unfold BackendServer.handle, BackendServer.home, BackendServer.health,
    BackendServer.video, BackendServer.api, BackendServer.image,
    BackendServer.content, BackendServer.server_stats, BackendServer.crash.
  destruct (BackendServer.call_request c);
    try (destruct (get_processing_time_known cfg "default" Hty) as [t ->]);
    try (destruct (get_processing_time_known cfg "video" Hty) as [t ->]);
    try (destruct (get_processing_time_known cfg "api" Hty) as [t ->]);
    try (destruct (get_processing_time_known cfg "image" Hty) as [t ->]);
    simpl; by eexists.
Qed.

Lemma backend_server_known_type_witness :
  BackendServer.SERVER_TYPE (BackendServer.mkConfig "ServerA" 5001 "video")
  ∈ ["video"; "api"; "image"; "general"]
  ∧ ∃ body,
      snd (BackendServer.handle
             (BackendServer.mkConfig "ServerA" 5001 "video")
             (BackendServer.mkCall (BackendServer.GetApi "users/7")
                                   (inject_Z 5) 42)
             (BackendServer.initial_stats (inject_Z 0)))
      = BackendServer.Returned 200 body.
Proof.
  assert (BackendServer.SERVER_TYPE (BackendServer.mkConfig "ServerA" 5001 "video")
          ∈ ["video"; "api"; "image"; "general"]) as Hty by (repeat constructor).
  split; [exact Hty|].
  exact (backend_server_known_type _ _ _ Hty).
Defined.

(** X18. A backend server started with any other type is misconfigured
    in a way the load balancer does not see: every request to [/],
    [/video/], [/api/] and [/image/] is counted and then raises
    ([KeyError], a 500 for the client), while [/health] still answers 200,
    so that a probe marks the backend healthy; and the balancer hands
    such a 500 to its caller as an answered forward, without counting a
    failure. *)
Theorem backend_server_unknown_type (cfg : BackendServer.Config)
    (c : BackendServer.Call) (st : BackendServer.ServerStats) :
  BackendServer.SERVER_TYPE cfg ∉ ["video"; "api"; "image"; "general"] →
  (BackendServer.counted (BackendServer.call_request c) = true →
   snd (BackendServer.handle cfg c st) = BackendServer.Raised
   ∧ BackendServer.status_of (snd (BackendServer.handle cfg c st)) = 500
   ∧ BackendServer.total_requests (fst (BackendServer.handle cfg c st))
     = BackendServer.total_requests st + 1)
  ∧ (∀ now rand b,
       healthy
         (probe
            (ProbeStatus
               (BackendServer.status_of
                  (snd (BackendServer.handle cfg
                          (BackendServer.mkCall BackendServer.GetHealth now rand)
                          st))))
            b) = true)
  ∧ (∀ env b p s bytes,
       forward env
       = Forwarded
           (mkResponse
              (BackendServer.status_of (snd (BackendServer.handle cfg c st)))
              bytes) →
       status_code (snd (complete env b p s))
       = BackendServer.status_of (snd (BackendServer.handle cfg c st))
       ∧ failed_requests (fst (complete env b p s)) = failed_requests s).
Proof.
  intros Hty. split; [|split].
  - unfold BackendServer.handle, BackendServer.home, BackendServer.video,
      BackendServer.api, BackendServer.image, BackendServer.content.
    destruct (BackendServer.call_request c); try done; intros _;
      rewrite get_processing_time_unknown by done; done.
  - done.
  - intros env b p s bytes Hfw. unfold complete. by rewrite Hfw.
Qed.

Lemma backend_server_unknown_type_witness :
  (BackendServer.SERVER_TYPE (BackendServer.mkConfig "ServerD" 5004 "audio")
   ∉ ["video"; "api"; "image"; "general"])
  ∧ BackendServer.counted (BackendServer.GetVideo "a.mp4") = true
  ∧ snd (BackendServer.handle
           (BackendServer.mkConfig "ServerD" 5004 "audio")
           (BackendServer.mkCall (BackendServer.GetVideo "a.mp4") (inject_Z 5) 42)
           (BackendServer.initial_stats (inject_Z 0)))
    = BackendServer.Raised.
Proof.
  assert (BackendServer.SERVER_TYPE (BackendServer.mkConfig "ServerD" 5004 "audio")
          ∉ ["video"; "api"; "image"; "general"]) as Hty.
  { simpl. rewrite !elem_of_cons, elem_of_nil. intros Hin.
    intuition discriminate. }
  split; [exact Hty|]. split; [reflexivity|].
  exact (proj1 (proj1 (backend_server_unknown_type
                         (BackendServer.mkConfig "ServerD" 5004 "audio")
                         (BackendServer.mkCall (BackendServer.GetVideo "a.mp4")
                                               (inject_Z 5) 42)
                         (BackendServer.initial_stats (inject_Z 0)) Hty)
                      eq_refl)).
Defined.

(** X19. For each of the three content types, the server of the matching
    type answers with [optimized = true], no warning and a processing
    time strictly below that of every server of another known type,
    which answers with [optimized = false] and a warning. *)
Theorem optimized_backend_is_fastest (cfg1 cfg2 : BackendServer.Config)
    (kind label : string)
    (bump : BackendServer.ServerStats → BackendServer.ServerStats)
    (rand1 rand2 : Z) (item1 item2 : string)
    (st1 st2 : BackendServer.ServerStats) :
  kind ∈ ["video"; "api"; "image"] →
  BackendServer.SERVER_TYPE cfg1 = kind →
  BackendServer.SERVER_TYPE cfg2 ∈ ["video"; "api"; "image"; "general"] →
  BackendServer.SERVER_TYPE cfg2 ≠ kind →
  ∃ b1 b2,
    snd (BackendServer.content kind label bump cfg1 rand1 item1 st1)
    = BackendServer.Returned 200 (BackendServer.BContent b1)
    ∧ snd (BackendServer.content kind label bump cfg2 rand2 item2 st2)
      = BackendServer.Returned 200 (BackendServer.BContent b2)
    ∧ BackendServer.cb_optimized b1 = true
    ∧ BackendServer.cb_warning b1 = None
    ∧ BackendServer.cb_optimized b2 = false
    ∧ is_Some (BackendServer.cb_warning b2)
    ∧ Qlt (BackendServer.cb_processing_time_ms b1)
          (BackendServer.cb_processing_time_ms b2).
Proof.
  destruct cfg1 as [n1 p1 ty1], cfg2 as [n2 p2 ty2]. simpl.
  rewrite !elem_of_cons, !elem_of_nil.
  intros Hkind -> Hty2 Hne.
  unfold BackendServer.content.
  destruct Hkind as [->|[->|[->|[]]]];
    destruct Hty2 as [->|[->|[->|[->|[]]]]]; try done;
    (eexists _, _; split; [reflexivity|]; split; [reflexivity|];
     split; [reflexivity|]; split; [reflexivity|]; split; [reflexivity|];
     split; [by eexists|]; by vm_compute).
Qed.

Lemma optimized_backend_is_fastest_witness :
  "video" ∈ ["video"; "api"; "image"]
  ∧ BackendServer.SERVER_TYPE (BackendServer.mkConfig "ServerA" 5001 "video")
    = "video"
  ∧ BackendServer.SERVER_TYPE (BackendServer.mkConfig "ServerB" 5002 "api")
    ∈ ["video"; "api"; "image"; "general"]
  ∧ BackendServer.SERVER_TYPE (BackendServer.mkConfig "ServerB" 5002 "api")
    ≠ "video"
  ∧ ∃ b1 b2,
      snd (BackendServer.video (BackendServer.mkConfig "ServerA" 5001 "video")
             100 "a.mp4" (BackendServer.initial_stats (inject_Z 0)))
      = BackendServer.Returned 200 (BackendServer.BContent b1)
      ∧ snd (BackendServer.video (BackendServer.mkConfig "ServerB" 5002 "api")
               100 "a.mp4" (BackendServer.initial_stats (inject_Z 0)))
        = BackendServer.Returned 200 (BackendServer.BContent b2)
      ∧ BackendServer.cb_optimized b1 = true
      ∧ BackendServer.cb_warning b1 = None
      ∧ BackendServer.cb_optimized b2 = false
      ∧ is_Some (BackendServer.cb_warning b2)
      ∧ Qlt (BackendServer.cb_processing_time_ms b1)
            (BackendServer.cb_processing_time_ms b2).
Proof.
  assert ("video" ∈ ["video"; "api"; "image"]) as Hkind by (repeat constructor).
  assert (BackendServer.SERVER_TYPE (BackendServer.mkConfig "ServerB" 5002 "api")
          ∈ ["video"; "api"; "image"; "general"]) as Hty by (repeat constructor).
  assert (BackendServer.SERVER_TYPE (BackendServer.mkConfig "ServerB" 5002 "api")
          ≠ "video") as Hne by discriminate.
  split; [exact Hkind|]. split; [reflexivity|]. split; [exact Hty|].
  split; [exact Hne|].
  exact (optimized_backend_is_fastest
           (BackendServer.mkConfig "ServerA" 5001 "video")
           (BackendServer.mkConfig "ServerB" 5002 "api")
           "video" "Video" BackendServer.bump_video 100 100 "a.mp4" "a.mp4"
           (BackendServer.initial_stats (inject_Z 0))
           (BackendServer.initial_stats (inject_Z 0))
           Hkind eq_refl Hty Hne).
Defined.

(** * The comparison client *)

(** X20. [change_algorithm] of the comparison client returns [True]
    exactly when the load balancer accepted the name, and then the
    balancer's policy is that name; it returns [False], and the policy
    is unchanged, for any other name, and [False] when the balancer
    cannot be reached. *)
Theorem client_change_algorithm (lb : option State) (algorithm : string) :
  (snd (CompareAlgorithms.change_algorithm lb algorithm) = true
   ↔ is_Some lb ∧ algorithm ∈ valid)
  ∧ (∀ s, lb = Some s → algorithm ∈ valid →
          fst (CompareAlgorithms.change_algorithm lb algorithm)
          = Some (set_ALGORITHM algorithm s))
  ∧ (∀ s, lb = Some s → algorithm ∉ valid →
          fst (CompareAlgorithms.change_algorithm lb algorithm) = Some s).
Proof.
  unfold CompareAlgorithms.change_algorithm, change_algorithm.
  destruct lb as [s|]; simpl.
  - case_bool_decide as Hin; simpl.
    + split; [|split]; [|by intros ? [= ->]|done].
      split; [by eauto|done].
    + split; [|split]; [|done|by intros ? [= ->]].
      split; [done|]. by intros [_ ?].
  - split; [|done]. split; [done|]. by intros [[? ?] _].
Qed.

Lemma client_change_algorithm_witness :
  Some state_0 = Some state_0
  ∧ "file-size" ∈ valid
  ∧ fst (CompareAlgorithms.change_algorithm (Some state_0) "file-size")
    = Some (set_ALGORITHM "file-size" state_0).
Proof.
  assert ("file-size" ∈ valid) as Hin by (unfold valid; repeat constructor).
  split; [reflexivity|]. split; [exact Hin|].
  exact (proj1 (proj2 (client_change_algorithm (Some state_0) "file-size"))
               state_0 eq_refl Hin).
Defined.

Lemma tally_fold (requests : list CompareAlgorithms.Sample)
    (t : CompareAlgorithms.Tally) :
  fold_left CompareAlgorithms.tally_request requests t
  = CompareAlgorithms.mkTally
      (CompareAlgorithms.all_requests t ++ requests)
      (CompareAlgorithms.optimized_count t
       + CompareAlgorithms.optimized_in requests)
      (CompareAlgorithms.total_count t + Z.of_nat (length requests)).
Proof.
  revert t. induction requests as [|req requests IH]; intros t.
  - unfold CompareAlgorithms.optimized_in. simpl.
    rewrite app_nil_r, !Z.add_0_r. by destruct t.
  - cbn [fold_left]. rewrite IH.
    unfold CompareAlgorithms.tally_request, CompareAlgorithms.optimized_in.
    cbn [CompareAlgorithms.all_requests CompareAlgorithms.optimized_count
         CompareAlgorithms.total_count List.filter].
    rewrite <- app_assoc. cbn [app].
    f_equal; [destruct (CompareAlgorithms.optimized req); simpl length; lia|].
    simpl length. lia.
Qed.

Lemma div_count_Some (a : Q) (n : Z) :
  n ≠ 0 → CompareAlgorithms.div_count a n = Some (Qdiv a (inject_Z n)).
Proof.
  intros Hn. unfold CompareAlgorithms.div_count.
  by destruct (Z.eqb_spec n 0).
Qed.

Lemma analyze_type_Some (req_type : string)
    (requests : list CompareAlgorithms.Sample) :
  requests ≠ [] →
  ∃ report,
    CompareAlgorithms.analyze_type req_type requests = Some report
    ∧ CompareAlgorithms.tr_type report = req_type
    ∧ CompareAlgorithms.tr_total report = length requests.
Proof.
  intros Hne. unfold CompareAlgorithms.analyze_type.
  assert (Z.of_nat (length requests) ≠ 0) as Hlen
    by (destruct requests; [done|simpl; lia]).
  match goal with
  | |- context [mapM ?f ?l] =>
      destruct (mapM_is_Some_2 f l) as [distribution ->]
  end.
  { apply Forall_forall. intros entry _. simpl.
    rewrite div_count_Some by done. by eexists. }
  simpl. rewrite length_map, div_count_Some by done. simpl.
  destruct requests as [|req requests]; [done|]. simpl.
  eexists. by repeat split.
Qed.

Lemma analyze_types_Some (results : list (string * list CompareAlgorithms.Sample))
    (t : CompareAlgorithms.Tally) :
  ∃ reports,
    CompareAlgorithms.analyze_types results t
    = Some (reports,
            fold_left CompareAlgorithms.tally_request
                      (concat (map snd results)) t)
    ∧ map CompareAlgorithms.tr_type reports
      = map fst (List.filter
                   (fun entry => match entry.2 with [] => false | _ => true end)
                   results).
Proof.
  revert t. induction results as [|[req_type requests] results IH]; intros t.
  - by exists [].
  - cbn [CompareAlgorithms.analyze_types map concat snd List.filter].
    destruct requests as [|req requests].
    + apply IH.
    + rewrite fold_left_app.
      destruct (analyze_type_Some req_type (req :: requests)) as
        (report & -> & Hty & _); [done|].
      destruct (IH (fold_left CompareAlgorithms.tally_request (req :: requests) t))
        as (reports & -> & Htypes).
      exists (report :: reports). simpl. by rewrite Hty, Htypes.
Qed.

(** X21. [analyze_results] never raises: the guards on empty lists keep
    every division, [min] and [max] away from an empty list.  It reports
    one block per request type that has samples, in the order of the
    dict, and the [total_requests] it returns is the number of samples
    of all types together; without any sample the summary is all
    zeros. *)
Theorem analyze_results_total (algorithm_name : string)
    (results : list (string * list CompareAlgorithms.Sample)) :
  ∃ reports summary,
    CompareAlgorithms.analyze_results algorithm_name results
    = Some (reports, summary)
    ∧ CompareAlgorithms.sm_algorithm summary = algorithm_name
    ∧ CompareAlgorithms.sm_total_requests summary
      = Z.of_nat (length (concat (map snd results)))
    ∧ map CompareAlgorithms.tr_type reports
      = map fst (List.filter
                   (fun entry => match entry.2 with [] => false | _ => true end)
                   results)
    ∧ (concat (map snd results) = [] →
       summary = CompareAlgorithms.mkSummary algorithm_name (inject_Z 0)
                                             (inject_Z 0) 0).
Proof.
  unfold CompareAlgorithms.analyze_results.
  destruct (analyze_types_Some results (CompareAlgorithms.mkTally [] 0 0))
    as (reports & -> & Htypes).
  rewrite tally_fold. simpl.
  destruct (concat (map snd results)) as [|req requests] eqn:Hall.
  - exists reports. eexists. by repeat split.
  - rewrite div_count_Some by (simpl; lia). simpl.
    exists reports. eexists. by repeat split.
Qed.

Lemma optimized_in_bounds (requests : list CompareAlgorithms.Sample) :
  0 ≤ CompareAlgorithms.optimized_in requests ≤ Z.of_nat (length requests).
Proof.
  unfold CompareAlgorithms.optimized_in. split; [lia|].
  apply Nat2Z.inj_le, List.filter_length_le.
Qed.

Lemma percentage_bounds (k n : Z) :
  0 ≤ k ≤ n → 0 < n →
  Qle (inject_Z 0) (Qmult (Qdiv (inject_Z k) (inject_Z n)) (inject_Z 100))
  ∧ Qle (Qmult (Qdiv (inject_Z k) (inject_Z n)) (inject_Z 100)) (inject_Z 100).
Proof.
  intros Hk Hn.
  assert (Qlt 0 (inject_Z n)) as HnQ
    by (change 0%Q with (inject_Z 0); rewrite <- Zlt_Qlt; lia).
  assert (Qle 0 (Qdiv (inject_Z k) (inject_Z n))) as Hlow.
  { apply Qle_shift_div_l; [done|]. rewrite Qmult_0_l.
    change 0%Q with (inject_Z 0). rewrite <- Zle_Qle. lia. }
  assert (Qle (Qdiv (inject_Z k) (inject_Z n)) 1) as Hhigh.
  { apply Qle_shift_div_r; [done|]. rewrite Qmult_1_l. rewrite <- Zle_Qle. lia. }
  split.
  - change (inject_Z 0) with 0%Q. apply Qmult_le_0_compat; [done|].
    by change (0 <= 100)%Z.
  - apply Qle_trans with (Qmult 1 (inject_Z 100)).
    + apply Qmult_le_compat_r; [done|]. by change (0 <= 100)%Z.
    + rewrite Qmult_1_l. apply Qle_refl.
Qed.

(** X22. The [optimization_rate] that [analyze_results] returns is the
    share of samples flagged [optimized], in percent: it lies between 0
    and 100. *)
Theorem analyze_results_rate (algorithm_name : string)
    (results : list (string * list CompareAlgorithms.Sample)) :
  ∃ reports summary,
    CompareAlgorithms.analyze_results algorithm_name results
    = Some (reports, summary)
    ∧ Qle (inject_Z 0) (CompareAlgorithms.sm_optimization_rate summary)
    ∧ Qle (CompareAlgorithms.sm_optimization_rate summary) (inject_Z 100)
    ∧ (concat (map snd results) ≠ [] →
       CompareAlgorithms.sm_optimization_rate summary
       = Qmult (Qdiv (inject_Z (CompareAlgorithms.optimized_in
                                  (concat (map snd results))))
                     (inject_Z (Z.of_nat (length (concat (map snd results))))))
               (inject_Z 100)).
Proof.
  unfold CompareAlgorithms.analyze_results.
  destruct (analyze_types_Some results (CompareAlgorithms.mkTally [] 0 0))
    as (reports & -> & _).
  rewrite tally_fold. simpl.
  destruct (concat (map snd results)) as [|req requests] eqn:Hall.
  - exists reports. eexists. split; [done|]. simpl.
    split; [apply Qle_refl|]. split; [|done]. by change (0 <= 100)%Z.
  - rewrite div_count_Some by (simpl; lia). simpl. rewrite !Z.add_0_l.
    exists reports. eexists. split; [done|]. simpl.
    destruct (percentage_bounds
                (CompareAlgorithms.optimized_in (req :: requests))
                (Z.of_nat (length (req :: requests)))) as [Hlow Hhigh].
    { apply optimized_in_bounds. }
    { simpl. lia. }
    done.
Qed.

Example analyze_results_sample :
  CompareAlgorithms.sm_total_requests ∘ snd
  <$> CompareAlgorithms.analyze_results "round-robin"
        [("video", [CompareAlgorithms.mkSample (1 # 10) "ServerA" "video" true;
                    CompareAlgorithms.mkSample (3 # 10) "ServerB" "api" false]);
         ("api", []);
         ("image", [CompareAlgorithms.mkSample (2 # 10) "ServerC" "image" true])]
  = Some 3.
Proof. by vm_compute. Qed.

(** * Round-robin from end to end *)

Lemma proxy_round_robin (env : Env) (path : string) (s : State) :
  ALGORITHM s = "round-robin" → get_healthy_backends s ≠ [] →
  ∃ b0,
    get_healthy_backends s
      !! Z.to_nat (current_index s `mod` Z.of_nat (length (get_healthy_backends s)))
    = Some b0
    ∧ total_requests (fst (proxy env path s))
      = dd_add (total_requests s) (name b0) 1
    ∧ current_index (fst (proxy env path s)) = current_index s + 1
    ∧ ALGORITHM (fst (proxy env path s)) = "round-robin"
    ∧ BACKENDS (fst (proxy env path s)) = BACKENDS s.
Proof.
  intros Halg Hne.
  destruct (round_robin_nonempty s Hne) as (b0 & Hb0 & Hrr).
  exists b0. split; [done|].
  unfold proxy, select_backend. rewrite Halg. simpl. rewrite Hrr.
  destruct (complete_registry env b0 path
              (track (name b0) (set_current_index (current_index s + 1) s)))
    as (Hbs & Halg' & Hidx).
  rewrite complete_total_requests, Hbs, Halg', Hidx. done.
Qed.

Lemma occurrences_cons (i x : nat) (l : list nat) :
  occurrences i (x :: l) = (if Nat.eqb i x then 1 else 0) + occurrences i l.
Proof. unfold occurrences. simpl. destruct (Nat.eqb i x); simpl; lia. Qed.

Lemma proxy_all_round_robin (reqs : list (Env * string)) (s : State)
    (i : nat) (b : Backend) :
  ALGORITHM s = "round-robin" →
  NoDup (map name (get_healthy_backends s)) →
  get_healthy_backends s !! i = Some b →
  dd_get (total_requests (proxy_all reqs s)) (name b)
  = dd_get (total_requests s) (name b)
    + occurrences i (rr_indices (current_index s)
                                (length (get_healthy_backends s)) (length reqs)).
Proof.
  revert s. induction reqs as [|[env path] reqs IH]; intros s Halg Hnd Hi.
  - unfold occurrences, rr_indices. simpl. lia.
  - assert (get_healthy_backends s ≠ []) as Hne
      by (intros Hnil; by rewrite Hnil in Hi).
    destruct (proxy_round_robin env path s Halg Hne)
      as (b0 & Hb0 & Htot & Hidx & Halg' & Hbs).
    assert (get_healthy_backends (fst (proxy env path s))
            = get_healthy_backends s) as Hhs
      by (unfold get_healthy_backends; by rewrite Hbs).
    cbn [proxy_all length]. rewrite IH; [|done|by rewrite Hhs..].
    rewrite Hhs, Hidx, Htot, dd_get_add, rr_indices_S, occurrences_cons.
    set (i0 := Z.to_nat (current_index s
                         `mod` Z.of_nat (length (get_healthy_backends s)))) in *.
    assert (String.eqb (name b0) (name b) = Nat.eqb i i0) as ->; [|lia].
    destruct (Nat.eqb_spec i i0) as [->|Hne0].
    + rewrite Hi in Hb0. simplify_eq. apply String.eqb_refl.
    + apply String.eqb_neq. intros Heq. apply Hne0.
      eapply NoDup_lookup; [exact Hnd|..].
      * by rewrite list_lookup_fmap, Hi.
      * rewrite list_lookup_fmap, Hb0. simpl. by rewrite Heq.
Qed.

(** X23. Under round-robin, with the healthy backends carrying distinct
    names, serving [N] requests one after the other raises the total of
    every healthy backend by [N / K] rounded down or up, [K] being the
    number of healthy backends: the requests, not only the selections,
    are spread evenly. *)
Theorem round_robin_spreads_requests (reqs : list (Env * string)) (s : State)
    (b : Backend) :
  ALGORITHM s = "round-robin" →
  NoDup (map name (get_healthy_backends s)) →
  b ∈ get_healthy_backends s →
  dd_get (total_requests (proxy_all reqs s)) (name b)
  - dd_get (total_requests s) (name b)
  = Z.of_nat (length reqs) `div` Z.of_nat (length (get_healthy_backends s))
  ∨ dd_get (total_requests (proxy_all reqs s)) (name b)
    - dd_get (total_requests s) (name b)
    = (Z.of_nat (length reqs) + Z.of_nat (length (get_healthy_backends s)) - 1)
      `div` Z.of_nat (length (get_healthy_backends s)).
Proof.
  intros Halg Hnd [i Hi]%list_elem_of_lookup.
  rewrite (proxy_all_round_robin reqs s i b Halg Hnd Hi).
  pose proof (lookup_lt_Some _ _ _ Hi) as Hlt.
  rewrite occurrences_rr_indices by done.
  replace (current_index s + Z.of_nat (length reqs) - 1 - Z.of_nat i)
    with ((current_index s - 1 - Z.of_nat i) + Z.of_nat (length reqs)) by lia.
  destruct (div_window (current_index s - 1 - Z.of_nat i)
              (Z.of_nat (length reqs))
              (Z.of_nat (length (get_healthy_backends s))))
    as [Hfloor|Hceil]; [lia..| |]; [left|right]; lia.
Qed.

Lemma round_robin_spreads_requests_witness :
  ALGORITHM (set_ALGORITHM "round-robin" state_0) = "round-robin"
  ∧ NoDup (map name (get_healthy_backends (set_ALGORITHM "round-robin" state_0)))
  ∧ ServerB ∈ get_healthy_backends (set_ALGORITHM "round-robin" state_0)
  ∧ (dd_get (total_requests
               (proxy_all (repeat (env_ok, "x") 4)
                          (set_ALGORITHM "round-robin" state_0)))
            (name ServerB)
     - dd_get (total_requests (set_ALGORITHM "round-robin" state_0))
              (name ServerB)
     = Z.of_nat (length (repeat (env_ok, "x") 4))
       `div` Z.of_nat (length (get_healthy_backends
                                 (set_ALGORITHM "round-robin" state_0)))
     ∨ dd_get (total_requests
                 (proxy_all (repeat (env_ok, "x") 4)
                            (set_ALGORITHM "round-robin" state_0)))
              (name ServerB)
       - dd_get (total_requests (set_ALGORITHM "round-robin" state_0))
                (name ServerB)
       = (Z.of_nat (length (repeat (env_ok, "x") 4))
          + Z.of_nat (length (get_healthy_backends
                                (set_ALGORITHM "round-robin" state_0))) - 1)
         `div` Z.of_nat (length (get_healthy_backends
                                   (set_ALGORITHM "round-robin" state_0)))).
Proof.
  assert (NoDup (map name (get_healthy_backends
                             (set_ALGORITHM "round-robin" state_0)))) as Hnd.
  { simpl.
    repeat (apply NoDup_cons; split;
            [rewrite ?elem_of_cons, elem_of_nil; intros Hin;
             intuition discriminate|]).
    apply NoDup_nil_2. }
  assert (ServerB ∈ get_healthy_backends (set_ALGORITHM "round-robin" state_0))
    as Hin by (simpl; repeat constructor).
  split; [reflexivity|]. split; [exact Hnd|]. split; [exact Hin|].
  exact (round_robin_spreads_requests (repeat (env_ok, "x") 4)
           (set_ALGORITHM "round-robin" state_0) ServerB eq_refl Hnd Hin).
Defined.

Lemma analyze_results_total_witness :
  concat (map snd [("video", @nil CompareAlgorithms.Sample); ("api", [])]) = []
  ∧ ∃ reports summary,
      CompareAlgorithms.analyze_results "round-robin"
        [("video", []); ("api", [])] = Some (reports, summary)
      ∧ summary = CompareAlgorithms.mkSummary "round-robin" (inject_Z 0)
                                              (inject_Z 0) 0.
Proof.
  split; [reflexivity|].
  destruct (analyze_results_total "round-robin"
              [("video", @nil CompareAlgorithms.Sample); ("api", [])])
    as (reports & summary & Heq & _ & _ & _ & Hzero).
  exists reports, summary. split; [exact Heq | exact (Hzero eq_refl)].
Defined.

Lemma analyze_results_rate_witness :
  concat (map snd [("video",
                    [CompareAlgorithms.mkSample (1 # 10) "ServerA" "video" true])])
  ≠ []
  ∧ ∃ reports summary,
      CompareAlgorithms.analyze_results "content-based"
        [("video",
          [CompareAlgorithms.mkSample (1 # 10) "ServerA" "video" true])]
      = Some (reports, summary)
      ∧ Qle (CompareAlgorithms.sm_optimization_rate summary) (inject_Z 100).
Proof.
  split; [discriminate|].
  destruct (analyze_results_rate "content-based"
              [("video",
                [CompareAlgorithms.mkSample (1 # 10) "ServerA" "video" true])])
    as (reports & summary & Heq & _ & Hhigh & _).
  exists reports, summary. split; [exact Heq | exact Hhigh].
Defined.

(** * Selection and the health flags *)

Lemma healthy_elem (s : State) (b : Backend) :
  b ∈ get_healthy_backends s ↔ b ∈ BACKENDS s ∧ healthy b = true.
Proof. apply filter_elem. Qed.

Lemma no_healthy_backend (s : State) :
  get_healthy_backends s = [] ↔ ∀ b, b ∈ BACKENDS s → healthy b = false.
Proof.
  split.
  - intros Hnil b Hb. destruct (healthy b) eqn:Hh; [|done].
    assert (b ∈ get_healthy_backends s) as Hin by (by apply healthy_elem).
    rewrite Hnil in Hin. by apply elem_of_nil in Hin.
  - intros Hall. destruct (get_healthy_backends s) as [|b bs] eqn:Hhs; [done|].
    assert (b ∈ get_healthy_backends s) as [Hb Hh]%healthy_elem
      by (rewrite Hhs; apply list_elem_of_here).
    rewrite (Hall b Hb) in Hh. done.
Qed.

Lemma some_healthy_backend (s : State) :
  (∃ b, b ∈ BACKENDS s ∧ healthy b = true) → get_healthy_backends s ≠ [].
Proof.
  intros (b & Hb & Hh) Hnil. rewrite no_healthy_backend in Hnil.
  rewrite (Hnil b Hb) in Hh. done.
Qed.

(** C6. Whatever the policy and the path, [select_backend] returns [None]
    exactly when every backend of [BACKENDS] has its health flag cleared;
    in that case [proxy] answers 503 and leaves the whole state
    (counters, latencies, history, cursor) as it was.  As soon as one
    backend has its flag set, [select_backend] returns a backend, and that
    backend is an entry of [BACKENDS] with its flag set. *)
Theorem select_backend_none_iff (path : string) (s : State) :
  (fst (select_backend path s) = None
   ↔ ∀ b, b ∈ BACKENDS s → healthy b = false)
  ∧ (fst (select_backend path s) = None →
     ∀ env, proxy env path s = (s, no_backend_response))
  ∧ status_code no_backend_response = 503
  ∧ ((∃ b, b ∈ BACKENDS s ∧ healthy b = true) →
     ∃ b' s', select_backend path s = (Some b', s')
              ∧ b' ∈ BACKENDS s ∧ healthy b' = true).
Proof.
  assert (fst (select_backend path s) = None ↔ get_healthy_backends s = [])
    as Hiff.
  { split.
    - intros Hnone. destruct (get_healthy_backends s) eqn:Hhs; [done|].
      destruct (select_backend_is_Some path s) as [sel Hsel]; [by rewrite Hhs|].
      congruence.
    - intros Hhs. by rewrite select_backend_empty. }
  split; [by rewrite Hiff, no_healthy_backend|].
  split; [|split; [done|]].
  - intros Hnone env. apply Hiff in Hnone.
    unfold proxy. by rewrite select_backend_empty.
  - intros Hsome%some_healthy_backend.
    destruct (select_backend_is_Some path s Hsome) as [b' Hb'].
    destruct (select_backend path s) as [r s'] eqn:Hsel. simpl in Hb'. subst r.
    exists b', s'. split; [done|].
    apply healthy_elem, (select_backend_elem path). by rewrite Hsel.
Qed.

Lemma select_backend_none_iff_witness :
  (∃ b, b ∈ BACKENDS state_0 ∧ healthy b = true)
  ∧ select_backend "api/users" state_0 = (Some ServerB, state_0)
  ∧ (∃ b' s', select_backend "api/users" state_0 = (Some b', s')
              ∧ b' ∈ BACKENDS state_0 ∧ healthy b' = true)
  ∧ fst (select_backend "api/users" state_all_down) = None
  ∧ ∀ env, proxy env "api/users" state_all_down
           = (state_all_down, no_backend_response).
Proof.
  assert (∃ b, b ∈ BACKENDS state_0 ∧ healthy b = true) as Hsome.
  { exists ServerA. split; [apply list_elem_of_here|reflexivity]. }
  assert (fst (select_backend "api/users" state_all_down) = None) as Hnone
    by reflexivity.
  split; [exact Hsome|]. split; [reflexivity|].
  split;
    [exact (proj2 (proj2 (proj2 (select_backend_none_iff "api/users" state_0)))
                  Hsome)|].
  split; [exact Hnone|].
  exact (proj1 (proj2 (select_backend_none_iff "api/users" state_all_down)) Hnone).
Defined.

(** * Content-based routing and the path *)

Lemma not_startswith (path p : string) :
  ¬ (∃ rest, path = p +:+ rest) → startswith path p = false.
Proof.
  intros Hno. destruct (startswith path p) eqn:Hs; [|done].
  by apply startswith_iff in Hs.
Qed.

Lemma affinity_arm_min (s : State) (ty : string) :
  matching ty s ≠ [] →
  ∃ b, affinity_arm s (get_healthy_backends s) ty = (Some b, s)
       ∧ b ∈ matching ty s
       ∧ ∀ b', b' ∈ matching ty s → load s b ≤ load s b'.
Proof.
  intros Hne. unfold affinity_arm. fold (matching ty s).
  destruct (py_min_spec (load s) (matching ty s) Hne)
    as (b & i & Hmin & Hi & Hle & _).
  exists b. split; [|split].
  - rewrite Hmin. by destruct (matching ty s).
  - apply list_elem_of_lookup. eauto.
  - intros b' [j Hj]%list_elem_of_lookup. by eapply Hle.
Qed.

Lemma matching_elem (ty : string) (s : State) (b : Backend) :
  b ∈ matching ty s ↔ b ∈ BACKENDS s ∧ healthy b = true ∧ type b = ty.
Proof.
  unfold matching. rewrite filter_elem, healthy_elem, String.eqb_eq. tauto.
Qed.

Lemma no_matching (ty : string) (s : State) :
  ¬ (∃ b, b ∈ BACKENDS s ∧ healthy b = true ∧ type b = ty) →
  matching ty s = [].
Proof.
  intros Hno. destruct (matching ty s) as [|b bs] eqn:Hm; [done|].
  exfalso. apply Hno. exists b. apply matching_elem. rewrite Hm.
  apply list_elem_of_here.
Qed.

Lemma content_based_routing_arm (path ty : string) (s : State) :
  affinity_of path = Some ty →
  (matching ty s ≠ [] →
   content_based_routing path s = affinity_arm s (get_healthy_backends s) ty)
  ∧ (matching ty s = [] → content_based_routing path s = round_robin s).
Proof.
  intros Hty. split.
  - intros Hne. apply content_based_routing_affinity; [done|].
    intros Hnil. apply Hne. unfold matching. by rewrite Hnil.
  - intros Hnil.
    destruct (get_healthy_backends s) as [|b0 bs] eqn:Hhs.
    + rewrite content_based_routing_empty, round_robin_empty by done. done.
    + rewrite (content_based_routing_affinity path ty s Hty)
        by (by rewrite Hhs).
      unfold affinity_arm. fold (matching ty s). by rewrite Hnil.
Qed.

(** C9. [content_based_routing] classifies the path by its prefix:
    [video/], [api/] or [image/] ask for a backend of type [video], [api]
    or [image].  When some backend of [BACKENDS] with its health flag set
    has that type, the result is such a backend, with the least
    active-connection count among them, and the state is left as it was;
    when none has, or the path has none of the three prefixes, the result
    is that of [round_robin], which picks among the backends whose flag
    is set. *)
Theorem content_based_routing_by_affinity (path : string) (s : State) :
  (∀ ty,
     (ty = "video" ∧ ∃ rest, path = "video/" +:+ rest)
     ∨ (ty = "api" ∧ ∃ rest, path = "api/" +:+ rest)
     ∨ (ty = "image" ∧ ∃ rest, path = "image/" +:+ rest) →
     ((∃ b0, b0 ∈ BACKENDS s ∧ healthy b0 = true ∧ type b0 = ty) →
      ∃ b : Backend,
        content_based_routing path s = (Some b, s)
        ∧ b ∈ BACKENDS s ∧ healthy b = true ∧ type b = ty
        ∧ ∀ b', b' ∈ BACKENDS s → healthy b' = true → type b' = ty →
                default 0 (active_connections s !! name b)
                ≤ default 0 (active_connections s !! name b'))
     ∧ (¬ (∃ b0, b0 ∈ BACKENDS s ∧ healthy b0 = true ∧ type b0 = ty) →
        content_based_routing path s = round_robin s))
  ∧ (¬ (∃ rest, path = "video/" +:+ rest) →
     ¬ (∃ rest, path = "api/" +:+ rest) →
     ¬ (∃ rest, path = "image/" +:+ rest) →
     content_based_routing path s = round_robin s)
  ∧ (∀ b s', round_robin s = (Some b, s') →
             b ∈ BACKENDS s ∧ healthy b = true)
  ∧ ((∃ b0, b0 ∈ BACKENDS s ∧ healthy b0 = true) →
     is_Some (fst (round_robin s))).
Proof.
  split; [|split; [|split]].
  - intros ty Hclass.
    assert (affinity_of path = Some ty) as Hty.
    { unfold affinity_of.
      destruct Hclass as [[-> [rest ->]]|[[-> [rest ->]]|[-> [rest ->]]]].
      - by rewrite (proj2 (startswith_iff ("video/" +:+ rest) "video/"))
          by by exists rest.
      - assert (startswith ("api/" +:+ rest) "video/" = false) as ->
          by reflexivity.
        by rewrite (proj2 (startswith_iff ("api/" +:+ rest) "api/"))
          by by exists rest.
      - assert (startswith ("image/" +:+ rest) "video/" = false) as ->
          by reflexivity.
        assert (startswith ("image/" +:+ rest) "api/" = false) as ->
          by reflexivity.
        by rewrite (proj2 (startswith_iff ("image/" +:+ rest) "image/"))
          by by exists rest. }
    destruct (content_based_routing_arm path ty s Hty) as [Hhit Hmiss].
    split.
    + intros Hsome.
      assert (matching ty s ≠ []) as Hne.
      { destruct Hsome as (b0 & Hb0). apply matching_elem in Hb0.
        intros Hnil. rewrite Hnil in Hb0. by apply elem_of_nil in Hb0. }
      rewrite (Hhit Hne).
      destruct (affinity_arm_min s ty Hne) as (b & -> & Hb & Hmin).
      apply matching_elem in Hb as (Hb & Hh & Hbty).
      exists b. repeat split; try done.
      intros b' Hb' Hh' Hty'. apply (Hmin b'). by apply matching_elem.
    + intros Hnone. apply Hmiss. by apply no_matching.
  - intros Hv Ha Hi. unfold content_based_routing.
    rewrite (not_startswith _ _ Hv), (not_startswith _ _ Ha),
      (not_startswith _ _ Hi).
    destruct (get_healthy_backends s) eqn:Hhs; [|done].
    by rewrite round_robin_empty.
  - intros b s' Hrr. apply healthy_elem, round_robin_elem. by rewrite Hrr.
  - intros Hsome%some_healthy_backend. by apply round_robin_is_Some.
Qed.

Lemma content_based_routing_by_affinity_witness :
  ("video" = "video" ∧ ∃ rest, "video/movie.mp4" = "video/" +:+ rest)
  ∧ (∃ b0, b0 ∈ BACKENDS (track "ServerA" state_0)
           ∧ healthy b0 = true ∧ type b0 = "video")
  ∧ content_based_routing "video/movie.mp4" (track "ServerA" state_0)
    = (Some ServerA, track "ServerA" state_0)
  ∧ (∃ b : Backend,
       content_based_routing "video/movie.mp4" (track "ServerA" state_0)
       = (Some b, track "ServerA" state_0)
       ∧ b ∈ BACKENDS (track "ServerA" state_0)
       ∧ healthy b = true ∧ type b = "video"
       ∧ ∀ b', b' ∈ BACKENDS (track "ServerA" state_0) → healthy b' = true →
               type b' = "video" →
               default 0 (active_connections (track "ServerA" state_0) !! name b)
               ≤ default 0 (active_connections (track "ServerA" state_0)
                            !! name b'))
  ∧ (∃ b0, b0 ∈ BACKENDS state_two_video
           ∧ healthy b0 = true ∧ type b0 = "video")
  ∧ content_based_routing "video/movie.mp4" state_two_video
    = (Some ServerD, state_two_video)
  ∧ (∃ b : Backend,
       content_based_routing "video/movie.mp4" state_two_video
       = (Some b, state_two_video)
       ∧ b ∈ BACKENDS state_two_video
       ∧ healthy b = true ∧ type b = "video"
       ∧ ∀ b', b' ∈ BACKENDS state_two_video → healthy b' = true →
               type b' = "video" →
               default 0 (active_connections state_two_video !! name b)
               ≤ default 0 (active_connections state_two_video !! name b'))
  ∧ ¬ (∃ b0, b0 ∈ BACKENDS (health_check_at 0 ProbeRaised state_0)
             ∧ healthy b0 = true ∧ type b0 = "video")
  ∧ content_based_routing "video/movie.mp4"
      (health_check_at 0 ProbeRaised state_0)
    = round_robin (health_check_at 0 ProbeRaised state_0)
  ∧ fst (round_robin (health_check_at 0 ProbeRaised state_0)) = Some ServerB.
Proof.
  assert (∃ b0, b0 ∈ BACKENDS state_two_video
                ∧ healthy b0 = true ∧ type b0 = "video") as Hsome2.
  { exists ServerA. split; [apply list_elem_of_here|by split]. }
  assert ("video" = "video" ∧ ∃ rest, "video/movie.mp4" = "video/" +:+ rest)
    as Hclass by (split; [reflexivity|by exists "movie.mp4"]).
  assert (∃ b0, b0 ∈ BACKENDS (track "ServerA" state_0)
                ∧ healthy b0 = true ∧ type b0 = "video") as Hsome.
  { exists ServerA. split; [apply list_elem_of_here|by split]. }
  assert (¬ (∃ b0, b0 ∈ BACKENDS (health_check_at 0 ProbeRaised state_0)
                   ∧ healthy b0 = true ∧ type b0 = "video")) as Hnone.
  { intros (b0 & Hb0 & Hh & Hty). simpl in Hb0.
    rewrite !elem_of_cons, elem_of_nil in Hb0.
    destruct Hb0 as [->|[->|[->|[]]]]; discriminate. }
  split; [exact Hclass|]. split; [exact Hsome|]. split; [reflexivity|].
  split;
    [exact (proj1 (proj1 (content_based_routing_by_affinity "video/movie.mp4"
                            (track "ServerA" state_0))
                         "video" (or_introl Hclass)) Hsome)|].
  split; [exact Hsome2|]. split; [reflexivity|].
  split;
    [exact (proj1 (proj1 (content_based_routing_by_affinity "video/movie.mp4"
                            state_two_video)
                         "video" (or_introl Hclass)) Hsome2)|].
  split; [exact Hnone|].
  split;
    [exact (proj2 (proj1 (content_based_routing_by_affinity "video/movie.mp4"
                            (health_check_at 0 ProbeRaised state_0))
                         "video" (or_introl Hclass)) Hnone)|].
  reflexivity.
Defined.
